(** * ARC_study: actions, comparisons, decomposition board and templates

  A shallow embedding of the core of [arc/actions.py],
  [arc/comparisons.py], [arc/board.py] and [arc/template.py], and the
  properties the specification states about them.

  Python integers are [Z]; tuples of integer arguments are [list Z];
  dictionaries keyed by one-letter codes are [gmap string Z]; Python
  sets of colours are [gset Z]; numpy 2D arrays are lists of rows. *)

From Stdlib Require Import ZArith QArith.
From stdpp Require Import base option list gmap strings sorting.

#[local] Open Scope Z_scope.
#[local] Set Warnings "-register-all".

(** ** Constants ([arc/definitions.py]) *)

Module Constants.
Definition NULL_COLOR : Z := 10.
Definition NEGATIVE_COLOR : Z := 11.
Definition MAX_DIST : Z := 10000.
End Constants.

Module cst := Constants.

(** ** The numpy primitives the actions call *)

Definition Grid : Type := list (list Z).

Module np.

(** [x :: ] consed column-wise: the first column of the result. *)
Fixpoint zip_cons (r : list Z) (t : Grid) : Grid :=
  match r with
  | [] => []
  | x :: r' => (x :: hd [] t) :: zip_cons r' (tl t)
  end.

Fixpoint transpose (g : Grid) : Grid :=
  match g with
  | [] => []
  | r :: rs => zip_cons r (transpose rs)
  end.

(** [np.rot90]: one quarter turn counter-clockwise,
    [rot90(m)[i][j] = m[j][cols - 1 - i]]. *)
Definition rot90 (g : Grid) : Grid := reverse (transpose g).

(** [np.flip(m, axis)] on a 2D array; numpy raises [AxisError] for an
    axis outside [-2, 1], which is [None] here. *)
Definition flip (g : Grid) (axis : Z) : option Grid :=
  if bool_decide (axis = 0 ∨ axis = -2) then Some (reverse g)
  else if bool_decide (axis = 1 ∨ axis = -1) then Some (reverse <$> g)
  else None.

(** [np.tile(m, (v, h))]. *)
Definition tile (g : Grid) (v h : nat) : Grid :=
  mjoin (replicate v ((λ r, mjoin (replicate h r)) <$> g)).

Definition rows (g : Grid) : Z := Z.of_nat (length g).
Definition cols (g : Grid) : Z := Z.of_nat (length (hd [] g)).

(** [m[i][j]], with the null colour outside the array. *)
Definition at_ (g : Grid) (i j : nat) : Z :=
  nth j (nth i g []) cst.NULL_COLOR.

End np.

(** ** Objects

    Modelled from the spec: the [Object] class ([arc/object.py]) is not
    among the sources. The specification gives its contract: a tree node
    that is either a leaf point with a colour or a container that derives
    its grid by compositing its children at their anchors; [codes] maps
    one-letter generator keys to repeat counts that expand the node into
    a tiled grid; two objects are equal iff their materialized grids and
    anchors match. The tests fix the rest: a generator code [n] on ["V"]
    or ["H"] lays out [n + 1] copies of the cell along that axis
    ([test_deformations], [test_resize]), and an object with no generator
    ignores new codes ([test_deformations]: "if there's no generator,
    just return a copy of the original object"). *)

Inductive Object : Type := mkObject {
  row : Z;
  col : Z;
  color : Z;
  children : list Object;
  generator : option (gmap string Z);
  traits : gmap string bool
}.

Module Obj.

(** [Object(row, col, color)]: a leaf point. *)
Definition point (r c k : Z) : Object := mkObject r c k [] None ∅.

Definition loc (o : Object) : Z * Z := (row o, col o).
Definition anchor (o : Object) : Z * Z * Z := (row o, col o, color o).

(** [object.codes]: the generator's parameters, empty without one. *)
Definition codes (o : Object) : gmap string Z := default ∅ (generator o).

(** A child's grid laid at its offset inside the parent. *)
Definition Layer : Type := Z * Z * Grid.

Definition layer_rows (l : Layer) : Z := l.1.1 + np.rows l.2.
Definition layer_cols (l : Layer) : Z := l.1.2 + np.cols l.2.

(** The colour a layer shows at cell [(i, j)] of the parent, if any. *)
Definition layer_at (l : Layer) (i j : Z) : option Z :=
  let '(r, c, g) := l in
  if bool_decide (r ≤ i ∧ c ≤ j) then
    let v := np.at_ g (Z.to_nat (i - r)) (Z.to_nat (j - c)) in
    if bool_decide (v = cst.NULL_COLOR) then None else Some v
  else None.

(** Later layers are drawn over earlier ones. *)
Definition cell_at (ls : list Layer) (i j : Z) : Z :=
  foldl (λ acc l, default acc (layer_at l i j)) cst.NULL_COLOR ls.

Definition composite (ls : list Layer) : Grid :=
  let h := foldr (λ l m, Z.max (layer_rows l) m) 0 ls in
  let w := foldr (λ l m, Z.max (layer_cols l) m) 0 ls in
  (λ i, (λ j, cell_at ls i j) <$> seqZ 0 w) <$> seqZ 0 h.

(** The number of copies a generator code lays out along one axis. *)
Definition copies (g : option (gmap string Z)) (key : string) : nat :=
  Z.to_nat (default 0 (default ∅ g !! key) + 1).

(** [object.grid]: the materialized array. *)
Fixpoint grid (o : Object) : Grid :=
  match o with
  | mkObject _ _ k kids gen _ =>
      let cell :=
        match kids with
        | [] => [[k]]
        | _ => composite ((λ kid, (row kid, col kid, grid kid)) <$> kids)
        end in
      np.tile cell (copies gen "V") (copies gen "H")
  end.

Definition shape (o : Object) : Z * Z := (np.rows (grid o), np.cols (grid o)).

(** The points of the object: the cells that carry a colour. *)
Definition points (o : Object) : list Z :=
  filter (λ v, v ≠ cst.NULL_COLOR) (mjoin (grid o)).

Definition size (o : Object) : Z := Z.of_nat (length (points o)).

(** Insertion by decreasing count, ahead of equal counts. *)
Fixpoint rank_insert (x : Z * Z) (l : list (Z * Z)) : list (Z * Z) :=
  match l with
  | [] => [x]
  | y :: l' => if bool_decide (y.2 ≤ x.2) then x :: l else y :: rank_insert x l'
  end.

(** [object.c_rank]: the [(color, count)] pairs of the object's points,
    most frequent first, colours in increasing order among equal
    counts. *)
Definition c_rank (o : Object) : list (Z * Z) :=
  let ps := points o in
  let cs := merge_sort Z.le (remove_dups ps) in
  foldr rank_insert []
    ((λ c, (c, Z.of_nat (length (filter (λ v, v = c) ps)))) <$> cs).

(** [left == right]: materialized grids and anchors match. *)
Definition eqb (a b : Object) : bool :=
  bool_decide (anchor a = anchor b) && bool_decide (grid a = grid b).

(** [Object.from_grid(grid, anchor)]: a container of one point per
    coloured cell, in row-major order. *)
Definition default_anchor : Z * Z * Z := (0, 0, cst.NULL_COLOR).

Definition grid_points (g : Grid) : list Object :=
  mjoin (imap (λ i r,
    omap (λ '(j, v), if bool_decide (v = cst.NULL_COLOR) then None
                     else Some (point (Z.of_nat i) (Z.of_nat j) v))
         (imap (λ j v, (j, v)) r)) g).

Definition from_grid (g : Grid) (a : Z * Z * Z) : Object :=
  mkObject a.1.1 a.1.2 a.2 (grid_points g) None ∅.

(** [object.copy(anchor=..., codes=...)]: a copy, moved and recoloured to
    [anchor] when one is given, with the generator's codes replaced when
    [codes] is given and the object carries a generator. *)
Definition copy (o : Object) (a : option (Z * Z * Z))
    (cs : option (gmap string Z)) : Object :=
  let '(r, c, k) := default (anchor o) a in
  mkObject r c k (children o)
    (match cs, generator o with
     | Some m, Some _ => Some m
     | _, g => g
     end)
    (traits o).

End Obj.

(** ** The action algebra ([arc/actions.py]) *)

(** Argument tuples, as [inv] returns them and [act(obj, *args)]
    consumes them. *)
Definition Args : Type := list Z.

Module Actions.

(** *** Color *)

Module Paint.

Definition act (object : Object) (color : Z) : Object :=
  if bool_decide (color = cst.NULL_COLOR) then Obj.copy object None None
  else Obj.copy object (Some (row object, col object, color)) None.

Definition inv (left right : Object) : Args :=
  let c1 : gset Z := list_to_set ((Obj.c_rank left).*1) in
  let c2 : gset Z := list_to_set ((Obj.c_rank right).*1) in
  if bool_decide (size c1 = 1%nat ∧ size c2 = 1%nat) then
    if bool_decide (c1 ≠ c2) then [hd 0 (elements c2)] else []
  else [].

(** [act(object, *args)]: a missing colour takes its default
    [NULL_COLOR]; a second positional argument is a [TypeError]. *)
Definition act_star (object : Object) (args : Args) : option Object :=
  match args with
  | [] => Some (act object cst.NULL_COLOR)
  | [color] => Some (act object color)
  | _ => None
  end.

Definition rearg (object : Object) (color : Z) : Args := [color].

End Paint.

(** *** Location *)

Module Translate.

Definition act (object : Object) (dr dc : Z) : Object :=
  let '(a_row, a_col, color) := Obj.anchor object in
  Obj.copy object (Some (a_row + dr, a_col + dc, color)) None.

Definition inv (left right : Object) : Args :=
  if bool_decide (Obj.loc left = Obj.loc right) then []
  else [row right - row left; col right - col left].

(** [act(object, *args)]: missing offsets take their default 0; a third
    positional argument is a [TypeError]. *)
Definition act_star (object : Object) (args : Args) : option Object :=
  match args with
  | [] => Some (act object 0 0)
  | [dr] => Some (act object dr 0)
  | [dr; dc] => Some (act object dr dc)
  | _ => None
  end.

Definition rearg (object : Object) (dr dc : Z) : Args := [dr; dc].

End Translate.

Module Vertical.

Definition act (object : Object) (dr : Z) : Object :=
  Translate.act object dr 0.

Definition rearg (object : Object) (dr dc : Z) : Args := [dr].

End Vertical.

Module Horizontal.

Definition act (object : Object) (dc : Z) : Object :=
  Translate.act object 0 dc.

Definition rearg (object : Object) (dr dc : Z) : Args := [dc].

End Horizontal.

(** What the integer division of [rearg] can raise. *)
Inductive ArithError : Type :=
  | ZeroDivisionError.

Module Tile.

Definition act (object : Object) (nr nc : Z) : Object :=
  let '(dr, dc) := Obj.shape object in
  Translate.act object (nr * dr) (nc * dc).

(** [rearg]: [None] when the offsets are no multiples of the shape. The
    test [dr % shape[0] or dc % shape[1]] evaluates its second operand
    only when the first is zero; [%] and [//] are the floored ones of
    Python, which [Z.modulo] and [Z.div] are, and raise on a zero
    divisor. *)
Definition rearg (object : Object) (dr dc : Z) : ArithError + option Args :=
  let shape := Obj.shape object in
  if bool_decide (shape.1 = 0) then inl ZeroDivisionError
  else if bool_decide (dr `mod` shape.1 ≠ 0) then inr None
  else if bool_decide (shape.2 = 0) then inl ZeroDivisionError
  else if bool_decide (dc `mod` shape.2 ≠ 0) then inr None
  else
    let nr := dr `div` shape.1 in
    let nc := dc `div` shape.2 in
    inr (Some [nr; nc]).

End Tile.

Module VTile.

Definition act (object : Object) (nr : Z) : Object := Tile.act object nr 0.

Definition rearg (object : Object) (dr dc : Z) : ArithError + option Args :=
  match Tile.rearg object dr dc with
  | inl e => inl e
  | inr None => inr None
  | inr (Some tile_args) => inr (Some [nth 0 tile_args 0])
  end.

End VTile.

Module HTile.

Definition act (object : Object) (nc : Z) : Object := Tile.act object 0 nc.

Definition rearg (object : Object) (dr dc : Z) : ArithError + option Args :=
  match Tile.rearg object dr dc with
  | inl e => inl e
  | inr None => inr None
  | inr (Some tile_args) => inr (Some [nth 1 tile_args 0])
  end.

End HTile.

Module Justify.

Definition act (object : Object) (axis : Z) : Object :=
  if bool_decide (axis = 0) then Translate.act object (- row object) 0
  else Translate.act object 0 (- col object).

Definition rearg (object : Object) (dr dc : Z) : option Args :=
  if bool_decide (dr = - row object) then Some [0]
  else if bool_decide (dc = - col object) then Some [1]
  else None.

End Justify.

Module Zero.

Definition act (object : Object) : Object :=
  Obj.copy object (Some (0, 0, color object)) None.

Definition rearg (object : Object) (dr dc : Z) : option Args :=
  if bool_decide (dr = - row object ∧ dc = - col object) then Some []
  else None.

End Zero.

(** *** Orthogonal operations: rotations and reflections *)

Module Rotate.

Definition act (object : Object) (num : Z) : Object :=
  let turned := Nat.iter (Z.to_nat num) np.rot90 (Obj.grid object) in
  Obj.from_grid turned (Obj.anchor object).

End Rotate.

Module Flip.

Definition act (object : Object) (horizontal : Z) : option Object :=
  (λ grid, Obj.from_grid grid (Obj.anchor object))
    <$> np.flip (Obj.grid object) horizontal.

End Flip.

Module VFlip.

Definition o_arg : Z := 1.

(** [super().act(object, 0)]; axis 0 is always a valid axis. *)
Definition act (object : Object) : Object :=
  default object (Flip.act object 0).

End VFlip.

Module HFlip.

Definition o_arg : Z := 2.

Definition act (object : Object) : Object :=
  default object (Flip.act object 1).

End HFlip.

Module Orthogonal.

Definition o_arg : Z := 0.

Definition act (object : Object) (reflection rotation : Z) : Object :=
  let result := Obj.copy object None None in
  let result :=
    if bool_decide (reflection = 1) then VFlip.act result
    else if bool_decide (reflection = 2) then HFlip.act result
    else result in
  if bool_decide (rotation > 0) then Rotate.act result rotation else result.

(** [act(object, *args)]: missing arguments take their default 0; more
    than two positional arguments are a [TypeError]. *)
Definition act_star (object : Object) (args : Args) : option Object :=
  match args with
  | [] => Some (act object 0 0)
  | [reflection] => Some (act object reflection 0)
  | [reflection; rotation] => Some (act object reflection rotation)
  | _ => None
  end.

(** The inner loop [for ct in [1, 2, 3]]. *)
Fixpoint try_rotations (reflected right : Object) (o : Z) (cts : list Z)
    : option Args :=
  match cts with
  | [] => None
  | ct :: cts' =>
      if Obj.eqb (Rotate.act reflected ct) right then Some [o; ct]
      else try_rotations reflected right o cts'
  end.

(** The outer loop [for reflection in (cls, VFlip, HFlip)]; each
    candidate is its [act] with default arguments and its [o_arg]. *)
Fixpoint try_reflections (left right : Object)
    (rs : list ((Object → Object) * Z)) : Args :=
  match rs with
  | [] => []
  | (reflect, o) :: rs' =>
      let reflected := reflect left in
      if Obj.eqb reflected right then [o; 0]
      else match try_rotations reflected right o [1; 2; 3] with
           | Some args => args
           | None => try_reflections left right rs'
           end
  end.

Definition inv (left right : Object) : Args :=
  if bool_decide (Obj.size right = 1)
     || bool_decide (Obj.size left ≠ Obj.size right)
     || bool_decide (Obj.c_rank left ≠ Obj.c_rank right)
  then []
  else
    let left := Zero.act left in
    let right := Zero.act right in
    if Obj.eqb left right then []
    else try_reflections left right
           [ ((λ o, act o 0 0), o_arg);
             (VFlip.act, VFlip.o_arg);
             (HFlip.act, HFlip.o_arg) ].

End Orthogonal.

(** *** Deformations *)

Module Scale.

Definition act (object : Object) (vertical horizontal : Z) : Object :=
  let updated_codes := Obj.codes object in
  let updated_codes :=
    if bool_decide (vertical > 0) then <["V" := vertical - 1]> updated_codes
    else updated_codes in
  let updated_codes :=
    if bool_decide (horizontal > 0) then <["H" := horizontal - 1]> updated_codes
    else updated_codes in
  Obj.copy object None (Some updated_codes).

End Scale.

Module VScale.

Definition act (object : Object) (value : Z) : Object :=
  Scale.act object value 0.

End VScale.

Module HScale.

Definition act (object : Object) (value : Z) : Object :=
  Scale.act object 0 value.

End HScale.

(** *** Two-object actions *)

Module Resize.

Definition act (object secondary : Object) : Object :=
  let result := Obj.copy object None None in
  let result :=
    if bool_decide ((Obj.shape object).1 ≠ (Obj.shape secondary).1)
    then Scale.act result (Obj.shape secondary).1 0 else result in
  if bool_decide ((Obj.shape object).2 ≠ (Obj.shape secondary).2)
  then Scale.act result 0 (Obj.shape secondary).2 else result.

End Resize.

(** [chebyshev_vector] comes from the absent [arc/object_relations.py]
    and is a parameter of the two actions that call it. *)
Module Adjoin.

Definition act (chebyshev_vector : Object → Object → Z * Z)
    (object secondary : Object) : Object :=
  let result := Obj.copy object None None in
  let ch_vector := chebyshev_vector object secondary in
  if bool_decide (ch_vector.1 ≠ 0) then Translate.act result ch_vector.1 0
  else if bool_decide (ch_vector.2 ≠ 0) then Translate.act result 0 ch_vector.2
  else result.

End Adjoin.

Module Align.

Definition act (chebyshev_vector : Object → Object → Z * Z)
    (object secondary : Object) : Object :=
  let result := Obj.copy object None None in
  let ch_vector := chebyshev_vector object secondary in
  if bool_decide (ch_vector.1 ≠ 0) then
    let sign := if bool_decide (ch_vector.1 < 0) then -1 else 1 in
    Translate.act result (ch_vector.1 + sign * (Obj.shape object).1) 0
  else if bool_decide (ch_vector.2 ≠ 0) then
    let sign := if bool_decide (ch_vector.2 < 0) then -1 else 1 in
    Translate.act result 0 (ch_vector.2 + sign * (Obj.shape object).2)
  else result.

End Align.

End Actions.

(** The grid of [test_orthogonal] and its seven transforms. *)
Definition input_grid : Grid := [[1; 2; 3]; [4; 5; 6]; [7; 8; 9]].

Definition obj : Object := Obj.from_grid input_grid Obj.default_anchor.
Definition r90 : Object := Obj.from_grid (np.rot90 (Obj.grid obj)) Obj.default_anchor.
Definition r180 : Object := Obj.from_grid (np.rot90 (Obj.grid r90)) Obj.default_anchor.
Definition r270 : Object := Obj.from_grid (np.rot90 (Obj.grid r180)) Obj.default_anchor.
Definition vflip : Object :=
  Obj.from_grid (default [] (np.flip (Obj.grid obj) 0)) Obj.default_anchor.
Definition hflip : Object :=
  Obj.from_grid (default [] (np.flip (Obj.grid obj) 1)) Obj.default_anchor.
Definition diag1 : Object :=
  Obj.from_grid (default [] (np.flip (Obj.grid r90) 0)) Obj.default_anchor.
Definition diag2 : Object :=
  Obj.from_grid (default [] (np.flip (Obj.grid r90) 1)) Obj.default_anchor.

(** ** Comparisons ([arc/comparisons.py]) *)

(** The observations of an object that the comparisons read and whose
    definitions live in the absent [arc/object.py]: the silhouette test
    [left.sil(right)] and the ordering measure [object.order] (a triple
    whose last entry is the strength of the ordering, a float). *)
Class ObjectOrder : Type := {
  sil : Object → Object → bool;
  order : Object → Z * Z * Q
}.

(** A comparison returns a partial distance and a partial transform. *)
Definition Comparison : Type := Object → Object → Z * gmap string Z.

Section comparisons.
Context `{ObjectOrder}.

Definition get_order_diff : Comparison := λ left right,
  let dist := 0 in
  let transform : gmap string Z := ∅ in
  if bool_decide (length (Obj.c_rank left) = 1%nat
                  ∧ length (Obj.c_rank right) = 1%nat) && sil left right
  then (dist, transform)
  else if negb (Qeq_bool (order left).2 1) || negb (Qeq_bool (order right).2 1)
  then (cst.MAX_DIST, transform)
  else
    foldl (λ '(dist, transform) '(axis, code),
             if bool_decide (axis (Obj.shape left) ≠ axis (Obj.shape right))
             then
               let ct := axis (Obj.shape left) in
               let scaler := if bool_decide (code = "R") then "f" else "p" in
               (dist + 2, <[scaler := ct - 1]> transform)
             else (dist, transform))
          (dist, transform)
          [ (fst, "R"); (snd, "C") ].

Definition get_color_diff : Comparison := λ left right,
  let dist := 0 in
  let transform : gmap string Z := ∅ in
  let c1 : gset Z := list_to_set ((Obj.c_rank left).*1) in
  let c2 : gset Z := list_to_set ((Obj.c_rank right).*1) in
  if bool_decide (c1 ≠ c2) then
    if bool_decide (size c1 = 1%nat ∧ size c2 = 1%nat)
    then (dist + 2, <["c" := hd 0 (elements c1)]> transform)
    else (cst.MAX_DIST, transform)
  else (dist, transform).

Definition get_translation : Comparison := λ left right,
  let dist := 0 in
  let transform : gmap string Z := ∅ in
  let '(r1, c1) := Obj.loc left in
  let '(r2, c2) := Obj.loc right in
  if bool_decide (r1 = r2 ∧ c1 = c2) then (dist, transform)
  else if bool_decide (r1 = 0 ∧ c1 = 0) then
    (dist + 1, <["z" := 0]> transform)
  else if bool_decide (r2 ≠ r1) then
    if bool_decide (r1 = 0) then (dist + 1, <["j" := 0]> transform)
    else (dist + 2, <["w" := r1 - r2]> transform)
  else if bool_decide (c2 ≠ c1) then
    if bool_decide (c1 = 0) then (dist + 1, <["j" := 1]> transform)
    else (dist + 2, <["s" := c1 - c2]> transform)
  else (dist, transform).

Definition default_comparisons : list Comparison :=
  [get_order_diff; get_color_diff; get_translation].

End comparisons.

(** Modelled from the spec: [ObjectDelta] (its class is not among the
    sources). A directed comparison built by folding the ordered list of
    comparison functions: partial distances are summed, with any
    [MAX_DIST] component making the whole delta [MAX_DIST]; partial
    transforms are merged, later entries overwriting earlier ones. *)
Record ObjectDelta : Type := mkObjectDelta {
  left : Object;
  right : Object;
  dist : Z;
  transform : gmap string Z
}.

Definition new_ObjectDelta (l r : Object) (comparisons : list Comparison)
    : ObjectDelta :=
  let parts := (λ cmp : Comparison, cmp l r) <$> comparisons in
  mkObjectDelta l r
    (if bool_decide (cst.MAX_DIST ∈ parts.*1) then cst.MAX_DIST
     else foldr Z.add 0 (parts.*1))
    (foldl (λ acc t, t ∪ acc) ∅ (parts.*2)).

(** ** The decomposition board ([arc/board.py]) *)

Section find_closest.
Context `{ObjectOrder}.

(** The scan [for source in inventory[1:]], keeping the first minimum. *)
Definition closest_scan (obj : Object) (match_ : ObjectDelta)
    (sources : list Object) : ObjectDelta :=
  foldl (λ match_ source,
           let delta := new_ObjectDelta obj source default_comparisons in
           if bool_decide (dist delta < dist match_) then delta else match_)
        match_ sources.

(** [threshold] is an optional float; a finite float is a rational, and
    Python compares an integer with it exactly. *)
Definition find_closest (obj : Object) (inventory : list Object)
    (threshold : option Q) : option ObjectDelta :=
  match inventory with
  | [] => None
  | first :: rest =>
      let match_ :=
        closest_scan obj (new_ObjectDelta obj first default_comparisons) rest in
      match threshold with
      | Some t =>
          if negb (Qle_bool (inject_Z (dist match_)) t) then None
          else Some match_
      | None => Some match_
      end
  end.

End find_closest.

(** The cost side of the [Object] contract, from the absent
    [arc/object.py]: [object.props], the scalar cost of a representation,
    and [object.flatten()], its minimal materialization. *)
Class ObjectCost : Type := {
  props : Object → Z;
  flatten : Object → Object
}.

(** The contract of a decomposition process: the guard [test] and the
    re-expression [run], which may produce nothing. *)
Record Process : Type := mkProcess {
  test : Object → bool;
  run : Object → option Object
}.

Record Board : Type := mkBoard {
  rep : Object;
  processes : list Process;
  proc_q : list Object;
  bank : list Object
}.

Module Board_.

(** [Board(data)]: the queue starts with the root object alone. *)
Definition init (root : Object) (processes : list Process) : Board :=
  mkBoard root processes [root] [].

Definition generate_candidates (self : Board) (obj : Object) : list Object :=
  omap (λ process, if test process obj then run process obj else None)
       (processes self).

(** [obj.spawn()] followed by [new_obj.children[idx] = new_child]. *)
Definition spawn_with_child (obj : Object) (idx : nat) (new_child : Object)
    : Object :=
  mkObject (row obj) (col obj) (color obj) (<[idx := new_child]> (children obj))
    (generator obj) (traits obj).

(** [self._decomposition(obj)]. The scan over [obj.children[::-1]] stops
    at the first child with candidates, that is at the last such child
    of [obj.children]; [idx] is that child's index, [-(1 + rev_idx)] in
    the source. The lookup [find_closest(obj, [], threshold=0.75)] is
    always [None] and has no effect. *)
Fixpoint _decomposition (self : Board) (obj : Object) : list Object :=
  match obj with
  | mkObject _ _ _ kids _ tr =>
      if bool_decide (length kids = 0%nat) then []
      else if bool_decide (tr !! "finished" = Some true) then
        let scan := fix scan (kids : list Object) (idx : nat)
            : option (nat * list Object) :=
          match kids with
          | [] => None
          | child :: kids' =>
              match scan kids' (S idx) with
              | Some found => Some found
              | None =>
                  match _decomposition self child with
                  | [] => None
                  | child_candidates => Some (idx, child_candidates)
                  end
              end
          end in
        match scan kids 0%nat with
        | Some (idx, child_candidates) =>
            (λ new_child, spawn_with_child obj idx new_child)
              <$> child_candidates
        | None => []
        end
      else generate_candidates self obj
  end.

Section cost.
Context `{ObjectCost}.

(** The scan of [select_representation]: the running [best_props] and
    the representation chosen so far. *)
Definition select_scan (best_props : Z) (rep : Object) (objs : list Object)
    : Z * Object :=
  foldl (λ '(best_props, rep) obj,
           if bool_decide (props obj < best_props)
           then (props obj, flatten obj) else (best_props, rep))
        (best_props, rep) objs.

Definition select_representation (self : Board) : Board :=
  let best_props := props (rep self) in
  let '(_, rep') :=
    select_scan best_props (rep self) (bank self ++ proc_q self) in
  mkBoard rep' (processes self) (proc_q self) (bank self).

(** One turn of the [while] loop of [batch_decomposition], for the
    object [obj] just popped from the front of the queue [q]. *)
Definition batch_item (self : Board) (obj : Object) (q : list Object)
    : Board :=
  let new_objs := _decomposition self obj in
  let bank' :=
    if bool_decide (new_objs = []) then bank self ++ [flatten obj]
    else bank self in
  select_representation
    (mkBoard (rep self) (processes self) (q ++ new_objs) bank').

(** [while self.proc_q and ct < batch], [ct] counting up from 0: [n] is
    the number of turns left, [batch - ct]. *)
Fixpoint batch_loop (n : nat) (self : Board) : Board :=
  match n with
  | O => self
  | S n' =>
      match proc_q self with
      | [] => self
      | obj :: q => batch_loop n' (batch_item self obj q)
      end
  end.

Definition batch_decomposition (self : Board) (batch : Z) : Board :=
  batch_loop (Z.to_nat batch) self.

(** [for ct in range(max_iter)] with its [break] on an empty queue. *)
Fixpoint decompose_rounds (n : nat) (self : Board) (batch : Z) : Board :=
  match n with
  | O => self
  | S n' =>
      let self := batch_decomposition self batch in
      match proc_q self with
      | [] => self
      | _ => decompose_rounds n' self batch
      end
  end.

Definition decompose (self : Board) (batch max_iter : Z) : Board :=
  select_representation (decompose_rounds (Z.to_nat max_iter) self batch).

End cost.

End Board_.

(** ** Scenes ([arc/scene.py]) *)

Section recreate.
Context `{ObjectOrder}.

(** [Scene.recreate(obj, inventory)]: the closest match of the object
    itself, or the matches of its children taken one by one when their
    distances add up to strictly less. The method reads nothing of the
    scene. *)
Fixpoint recreate (obj : Object) (inventory : list Object)
    : Z * list ObjectDelta :=
  match find_closest obj inventory None with
  | None => (-1, [])
  | Some delta =>
      let result := (dist delta, [delta]) in
      match obj with
      | mkObject _ _ _ kids _ _ =>
          match kids with
          | [] => result
          | _ =>
              let '(all_dist, all_deltas) :=
                foldl (λ '(all_dist, all_deltas) kid,
                         let '(kid_dist, kid_deltas) := recreate kid inventory in
                         (all_dist + kid_dist, all_deltas ++ kid_deltas))
                      (0, []) kids in
              if bool_decide (dist delta ≤ all_dist) then result
              else (all_dist, all_deltas)
          end
      end
  end.

End recreate.

(** ** Templates ([arc/template.py]) *)

Module Template.

(** A property of a node: a concrete value or the marker ["?"]. *)
Inductive PropValue : Type :=
  | Known (v : Z)
  | Unknown.

Inductive StructureDef : Type := mkStructureDef {
  props : gmap string PropValue;
  children : list StructureDef
}.

Definition BaseObjectPath : Type := list Z.

(** What a statement can raise, and what the logger records. *)
Inductive Exn : Type :=
  | IndexError.

Inductive LogRecord : Type :=
  | warning (text : string) (base : BaseObjectPath).

(** Computations that log and may raise: the log written so far, then
    the exception or the value. *)
Definition M (A : Type) : Type := list LogRecord * (Exn + A).

Definition ret {A} (x : A) : M A := ([], inr x).

Definition raise {A} (e : Exn) : M A := ([], inl e).

Definition bind {A B} (m : M A) (k : A → M B) : M B :=
  match m with
  | (log, inl e) => (log, inl e)
  | (log, inr x) => let '(log', r) := k x in (log ++ log', r)
  end.

(** [try: m  except: handler]: a bare [except] catches every exception. *)
Definition try_except {A} (m : M A) (handler : M A) : M A :=
  match m with
  | (log, inl _) => let '(log', r) := handler in (log ++ log', r)
  | (log, inr x) => (log, inr x)
  end.

Definition log_warning (text : string) (base : BaseObjectPath) : M unit :=
  ([warning text base], inr tt).

(** [l[i]] on a Python list: negative indices count from the end, and an
    index outside [-len, len) raises [IndexError]. *)
Definition getitem {A} (l : list A) (i : Z) : M A :=
  let n := Z.of_nat (length l) in
  let i' := if bool_decide (i < 0) then i + n else i in
  if bool_decide (0 ≤ i' < n) then
    match l !! Z.to_nat i' with
    | Some x => ret x
    | None => raise IndexError
    end
  else raise IndexError.

(** The body of [for child_idx in base] in [get_base]: on a failed
    lookup the warning is logged and [node] keeps its value. *)
Fixpoint get_base_loop (base : BaseObjectPath) (idxs : list Z)
    (node : StructureDef) : M StructureDef :=
  match idxs with
  | [] => ret node
  | child_idx :: idxs' =>
      bind (try_except (getitem (children node) child_idx)
              (bind (log_warning "Can't access base path" base)
                    (λ _, ret node)))
           (λ node, get_base_loop base idxs' node)
  end.

Definition get_base (base : BaseObjectPath) (root : StructureDef)
    : M StructureDef :=
  let node := root in
  match base with
  | [] => ret node
  | _ => get_base_loop base base node
  end.

(** Following the spec's words: the nodes successfully reached along the
    path, starting at the root; an index that is out of range at the
    current node reaches nothing. *)
Definition child_at (node : StructureDef) (i : Z) : option StructureDef :=
  let n := Z.of_nat (length (children node)) in
  if bool_decide (0 ≤ i < n) then children node !! Z.to_nat i
  else if bool_decide (- n ≤ i < 0) then children node !! Z.to_nat (i + n)
  else None.

Fixpoint reached (idxs : list Z) (node : StructureDef) : list StructureDef :=
  match idxs with
  | [] => []
  | i :: idxs' =>
      match child_at node i with
      | Some child => child :: reached idxs' child
      | None => reached idxs' node
      end
  end.

(** The indices of the path that were out of range when tried. *)
Fixpoint failures (idxs : list Z) (node : StructureDef) : list Z :=
  match idxs with
  | [] => []
  | i :: idxs' =>
      match child_at node i with
      | Some child => failures idxs' child
      | None => i :: failures idxs' node
      end
  end.

(** The node the walk of [get_base] ends on: the last node reached, or
    the starting node when no lookup succeeded. *)
Definition final (idxs : list Z) (node : StructureDef) : StructureDef :=
  default node (last (reached idxs node)).

(** Modelled from the spec: [ObjectPath] (its class lives in the absent
    [arc/object.py]) is a base tree-path plus an optional property
    name. *)
Record ObjectPath : Type := mkObjectPath {
  path_base : BaseObjectPath;
  property : option string
}.

(** The position [l[i]] reads and [l[i] = x] writes in a list of
    length [n], for an index in range. *)
Definition position (n : nat) (i : Z) : nat :=
  Z.to_nat (if bool_decide (i < 0) then i + Z.of_nat n else i).

(** The frame after the node that the walk of [get_base] ends on has
    been mutated by [f]. The source mutates that node in place; a
    frame is a deep copy of a structure built by [recursive_compare],
    so no node occurs twice in it, and the mutation shows in the frame
    at the one place the walk went through. *)
Fixpoint mutate_base (idxs : list Z) (f : StructureDef → StructureDef)
    (node : StructureDef) : StructureDef :=
  match idxs with
  | [] => f node
  | child_idx :: idxs' =>
      match getitem (children node) child_idx with
      | (_, inr child) =>
          mkStructureDef (props node)
            (<[position (length (children node)) child_idx :=
                 mutate_base idxs' f child]> (children node))
      | (_, inl _) => mutate_base idxs' f node
      end
  end.

(** [target["props"][key] = value]. *)
Definition set_prop (key : string) (value : Z) (target : StructureDef)
    : StructureDef :=
  mkStructureDef (<[key := Known value]> (props target)) (children target).

(** [Template.apply_variable(frame, path, value)]; the result is the
    frame as the call leaves it. A [StructureDef] has two keys, so
    [if target] always holds. *)
Definition apply_variable (frame : StructureDef) (path : ObjectPath)
    (value : Z) : M StructureDef :=
  bind (get_base (path_base path) frame) (λ target,
    match property path with
    | Some key => ret (mutate_base (path_base path) (set_prop key value) frame)
    | None => ret frame
    end).

End Template.

(** ** Vocabulary of the statements *)

(** The set of colours present in an object, as the comparisons and
    [Paint.inv] build it from [c_rank]. *)
Definition color_set (o : Object) : gset Z :=
  list_to_set ((Obj.c_rank o).*1).

(** Exactly one colour is present. *)
Definition monochrome (o : Object) : Prop := size (color_set o) = 1%nat.

Section closest.
Context `{ObjectOrder}.

(** The delta that [find_closest] builds for a candidate. *)
Definition delta_to (obj source : Object) : ObjectDelta :=
  new_ObjectDelta obj source default_comparisons.

(** [best] at index [i] of [inventory] has the least distance to [obj],
    and every earlier candidate is strictly farther. *)
Definition first_closest (obj : Object) (inventory : list Object)
    (i : nat) (best : Object) : Prop :=
  inventory !! i = Some best
  ∧ (∀ c, c ∈ inventory → dist (delta_to obj best) ≤ dist (delta_to obj c))
  ∧ (∀ j c, (j < i)%nat → inventory !! j = Some c →
            dist (delta_to obj best) < dist (delta_to obj c)).

End closest.

(** A result of [recreate] that is sound for the inventory: the
    distance is the total of the deltas, it is not negative, there is a
    delta, and every delta ends in the inventory. *)
Definition recreated (inventory : list Object)
    (res : Z * list ObjectDelta) : Prop :=
  res.1 = foldr Z.add 0 (dist <$> res.2)
  ∧ 0 ≤ res.1
  ∧ res.2 ≠ []
  ∧ Forall (λ d, right d ∈ inventory) res.2.

(** A stand-in for the absent ordering measures, used to run the
    comparisons on examples: silhouettes are compared as shapes and
    every object counts as fully ordered. *)
Definition plain_order : ObjectOrder :=
  {| sil := λ a b, bool_decide (Obj.shape a = Obj.shape b);
     order := λ _, (1, 1, 1%Q) |}.

Section batch.
Context `{ObjectCost}.

(** The board after the object [obj], popped from the front of the
    queue with [q] left behind, has been handled as the specification
    words it:
    candidates go to the back of the queue, an object without
    candidates goes flattened to the bank, and the representation is
    selected again. *)
Definition after_item (b : Board) (obj : Object) (q : list Object) : Board :=
  let new_objs := Board_._decomposition b obj in
  Board_.select_representation
    (mkBoard (rep b) (processes b) (q ++ new_objs)
       (match new_objs with
        | [] => bank b ++ [flatten obj]
        | _ => bank b
        end)).

(** [pops b popped b']: handling the objects [popped], each taken in
    turn from the front of the queue, leads from [b] to [b']. *)
Inductive pops : Board → list Object → Board → Prop :=
  | pops_nil (b : Board) : pops b [] b
  | pops_cons (b : Board) (obj : Object) (q popped : list Object)
      (b' : Board) :
      proc_q b = obj :: q →
      pops (after_item b obj q) popped b' →
      pops b (obj :: popped) b'.

End batch.

(** A stand-in for the absent cost measures, used to run the board on
    examples: the cost of an object is the number of nodes of its tree,
    and flattening leaves it as it is. *)
Fixpoint node_count (o : Object) : nat :=
  match o with
  | mkObject _ _ _ kids _ _ => S (sum_list (node_count <$> kids))
  end.

Definition node_cost : ObjectCost :=
  {| props := λ o, Z.of_nat (node_count o); flatten := λ o, o |}.

(** A stand-in process in the manner of [MakeBase]: an object with
    children that is not yet finished is re-expressed as one finished
    point at its anchor. *)
Definition collapse : Process :=
  {| test := λ o, negb (bool_decide (children o = []));
     run := λ o, Some (mkObject (row o) (col o) (color o) [] (generator o)
                         {["finished" := true]}) |}.

(** A fresh board over two stacked points, with the stand-in process. *)
Definition two_points : Object :=
  mkObject 0 0 cst.NULL_COLOR [Obj.point 0 0 1; Obj.point 1 0 1] None ∅.

Definition demo_board : Board := Board_.init two_points [collapse].

(** The generators whose expansion the sources fix are those of
    [test_deformations] and [test_resize], which carry the codes ["V"]
    and ["H"] alone. Other codes are expanded by the absent generator
    class in ways the sources do not show, and [Obj.grid] leaves them
    out: the grid and the shape are the program's on the objects that
    carry no other code, at any depth. *)
Fixpoint tiles_only (o : Object) : bool :=
  match o with
  | mkObject _ _ _ kids gen _ =>
      bool_decide (map_Forall (λ code _, code = "V" ∨ code = "H")
                     (default ∅ gen))
      && forallb tiles_only kids
  end.













(** * Properties *)

(** ** Orthogonal round trip *)

(** The assertions of [test_orthogonal] on the forward direction. *)
Example orthogonal_forward :
  Actions.Orthogonal.act obj 0 1 = r90
  ∧ Actions.Orthogonal.act obj 0 2 = r180
  ∧ Actions.Orthogonal.act obj 0 3 = r270
  ∧ Actions.Orthogonal.act obj 1 0 = vflip
  ∧ Actions.Orthogonal.act obj 2 0 = hflip
  ∧ Actions.Orthogonal.act obj 1 3 = diag1
  ∧ Actions.Orthogonal.act obj 1 1 = diag2.
Proof. repeat split; vm_compute; reflexivity. Qed.

(** The arguments [inv] finds for each of the seven transforms. The
    horizontal flip is found as a vertical flip and a half turn, which
    the scan reaches before it tries [HFlip]. *)
Example orthogonal_inv_args :
  Actions.Orthogonal.inv obj <$> [r90; r180; r270; vflip; hflip; diag1; diag2]
  = [[0; 1]; [0; 2]; [0; 3]; [1; 0]; [1; 2]; [1; 3]; [1; 1]].
Proof. vm_compute. reflexivity. Qed.

(** None of the seven is the identity transform of the grid. *)
Example orthogonal_non_identity :
  Forall (λ transformed, Obj.eqb transformed obj = false)
    [r90; r180; r270; vflip; hflip; diag1; diag2].
Proof. repeat constructor. Qed.

(** C1: for the grid [[1,2,3],[4,5,6],[7,8,9]] and each of its seven
    non-identity orthogonal transforms,
    [Orthogonal.act(obj, *Orthogonal.inv(obj, transformed))] returns an
    object equal ([==]) to [transformed]; in this model it is the very
    same object. *)
Theorem C1_orthogonal_round_trip :
  Forall (λ transformed,
            ∃ result,
              Actions.Orthogonal.act_star obj
                (Actions.Orthogonal.inv obj transformed) = Some result
              ∧ Obj.eqb transformed result = true
              ∧ result = transformed)
    [r90; r180; r270; vflip; hflip; diag1; diag2].
Proof.
  repeat match goal with |- Forall _ _ => constructor end;
    (eexists; split; [vm_compute; reflexivity | split; vm_compute; reflexivity]).
Qed.

(** ** Paint *)

Lemma copy_unchanged (o : Object) : Obj.copy o None None = o.
Proof. destruct o as [r c k kids [m|] tr]; reflexivity. Qed.

(** C9: [Paint.act(o, color)] with [color] the [NULL_COLOR] sentinel (10)
    returns an unchanged copy of [o]: location, colour and grid are all
    preserved, and the copy is equal to [o]. *)
Theorem C9_paint_null_color (o : Object) :
  cst.NULL_COLOR = 10
  ∧ Actions.Paint.act o cst.NULL_COLOR = Obj.copy o None None
  ∧ Obj.loc (Actions.Paint.act o cst.NULL_COLOR) = Obj.loc o
  ∧ color (Actions.Paint.act o cst.NULL_COLOR) = color o
  ∧ Obj.grid (Actions.Paint.act o cst.NULL_COLOR) = Obj.grid o
  ∧ Obj.eqb (Actions.Paint.act o cst.NULL_COLOR) o = true.
Proof.
  assert (Actions.Paint.act o cst.NULL_COLOR = Obj.copy o None None) as Hact
    by reflexivity.
  rewrite Hact, copy_unchanged. repeat split.
  unfold Obj.eqb. rewrite !bool_decide_eq_true_2; done.
Qed.

(** Any other colour repaints the anchor, as [test_color] checks. *)
Example paint_other_color :
  color (Actions.Paint.act (Obj.point 1 1 1) 2) = 2
  ∧ Obj.grid (Actions.Paint.act (Obj.point 1 1 1) 2) = [[2]]
  ∧ Actions.Paint.act (Actions.Paint.act (Obj.point 1 1 1) 0) 1 = Obj.point 1 1 1.
Proof. repeat split. Qed.

(** ** Colour comparison *)

Lemma color_diff_unfold (l r : Object) :
  get_color_diff l r =
    if bool_decide (color_set l ≠ color_set r) then
      if bool_decide (monochrome l ∧ monochrome r)
      then (2, {["c" := hd 0 (elements (color_set l))]})
      else (cst.MAX_DIST, ∅)
    else (0, ∅).
Proof. reflexivity. Qed.

Lemma monochrome_singleton (o : Object) :
  monochrome o → ∃ c, color_set o = {[c]} ∧ hd 0 (elements (color_set o)) = c.
Proof.
  intros Hm. apply size_1_elem_of in Hm as [c Hc].
  apply leibniz_equiv in Hc. exists c. split; [done|].
  rewrite Hc, elements_singleton. reflexivity.
Qed.

(** C3, as the code has it: when the colour sets differ and each side is
    monochrome, [get_color_diff] returns distance 2 and the transform
    [{"c": colour}] where [colour] is the LEFT object's colour; when the
    colour sets differ and a side has more than one colour, it returns
    [MAX_DIST] with an empty transform. *)
Theorem C3_color_diff (l r : Object) :
  color_set l ≠ color_set r →
  (monochrome l → monochrome r →
     ∃ c, color_set l = {[c]} ∧ get_color_diff l r = (2, {["c" := c]}))
  ∧ ((1 < size (color_set l) ∨ 1 < size (color_set r))%nat →
     get_color_diff l r = (cst.MAX_DIST, ∅)).
Proof.
  intros Hne. rewrite color_diff_unfold, (bool_decide_eq_true_2 _ Hne). split.
  - intros Hl Hr. rewrite bool_decide_eq_true_2 by done.
    destruct (monochrome_singleton l Hl) as (c & Hc & Hhd).
    exists c. by rewrite Hhd.
  - intros Hmany. rewrite bool_decide_eq_false_2; [done|].
    unfold monochrome. lia.
Qed.

(** A blue point against a red point: the transform carries blue, the
    left colour, where the specification expects red. *)
Lemma C3_counterexample :
  let l := Obj.point 0 0 1 in
  let r := Obj.point 0 0 2 in
  color_set l ≠ color_set r ∧ monochrome l ∧ monochrome r
  ∧ color_set r = {[2]}
  ∧ get_color_diff l r = (2, {["c" := 1]})
  ∧ get_color_diff l r ≠ (2, {["c" := 2]}).
Proof. repeat split; by vm_compute. Qed.

Lemma C3_witness :
  (∃ c, color_set (Obj.point 0 0 1) = {[c]}
        ∧ get_color_diff (Obj.point 0 0 1) (Obj.point 0 0 2) = (2, {["c" := c]}))
  ∧ get_color_diff
      (mkObject 0 0 10 [Obj.point 0 0 1; Obj.point 0 1 3] None ∅)
      (Obj.point 0 0 2) = (cst.MAX_DIST, ∅).
Proof.
  split.
  - apply (C3_color_diff (Obj.point 0 0 1) (Obj.point 0 0 2));
      by vm_compute.
  - apply (C3_color_diff
             (mkObject 0 0 10 [Obj.point 0 0 1; Obj.point 0 1 3] None ∅)
             (Obj.point 0 0 2)); [by vm_compute|].
    left. vm_compute. lia.
Defined.

(** ** Translation comparison *)

Lemma loc_ne (l r : Object) :
  Obj.loc l ≠ Obj.loc r ↔ row l ≠ row r ∨ col l ≠ col r.
Proof.
  unfold Obj.loc. split.
  - intros Hne. destruct (decide (row l = row r)) as [Hr|]; [|by left].
    right. intros Hc. apply Hne. by rewrite Hr, Hc.
  - intros [Hr|Hc] [= ? ?]; done.
Qed.

Ltac translation_cases :=
  unfold get_translation, Obj.loc; cbv iota beta;
  repeat case_bool_decide; first [reflexivity | lia].

(** Equal locations cost nothing and propose nothing. *)
Lemma translation_same_loc (l r : Object) :
  Obj.loc l = Obj.loc r → get_translation l r = (0, ∅).
Proof.
  unfold Obj.loc. intros [= Hr Hc]. translation_cases.
Qed.

(** C4, as the code has it: with equal locations [get_translation]
    contributes distance 0 and no transform. With differing locations it
    charges 1 and proposes ["z"] when the LEFT object sits at the origin
    (the move from right to left is the move to the origin), and charges
    1 and proposes ["j"] with the axis that the left object has at zero
    (0 for the row, 1 for the column) when the other axis is the same on
    both sides. *)
Theorem C4_translation (l r : Object) :
  (Obj.loc l = Obj.loc r → get_translation l r = (0, ∅))
  ∧ (Obj.loc l ≠ Obj.loc r →
       (Obj.loc l = (0, 0) → get_translation l r = (1, {["z" := 0]}))
     ∧ (row l = 0 → row r ≠ 0 → col l = col r → col l ≠ 0 →
          get_translation l r = (1, {["j" := 0]}))
     ∧ (col l = 0 → col r ≠ 0 → row l = row r → row l ≠ 0 →
          get_translation l r = (1, {["j" := 1]}))).
Proof.
  split; [apply translation_same_loc|].
  rewrite loc_ne. intros Hne. repeat split.
  - intros [= Hr Hc]. translation_cases.
  - intros. translation_cases.
  - intros. translation_cases.
Qed.

(** Moving the left object onto the right one is here a move to the
    origin, and a move that zeroes the row alone; the code answers with
    the raw row offset at distance 2 both times. *)
Lemma C4_counterexample :
  (let l := Obj.point 1 1 1 in
   let r := Obj.point 0 0 1 in
   Obj.loc l ≠ Obj.loc r ∧ Obj.loc r = (0, 0)
   ∧ get_translation l r = (2, {["w" := 1]})
   ∧ get_translation l r ≠ (1, {["z" := 0]}))
  ∧ (let l := Obj.point 3 5 1 in
     let r := Obj.point 0 5 1 in
     Obj.loc l ≠ Obj.loc r ∧ row r = 0 ∧ col r = col l
     ∧ get_translation l r = (2, {["w" := 3]})
     ∧ get_translation l r ≠ (1, {["j" := 0]})).
Proof. repeat split; by vm_compute. Qed.

Lemma C4_witness :
  get_translation (Obj.point 4 2 1) (Obj.point 4 2 3) = (0, ∅)
  ∧ get_translation (Obj.point 0 0 1) (Obj.point 1 1 1) = (1, {["z" := 0]})
  ∧ get_translation (Obj.point 0 5 1) (Obj.point 3 5 1) = (1, {["j" := 0]})
  ∧ get_translation (Obj.point 2 0 1) (Obj.point 2 7 1) = (1, {["j" := 1]}).
Proof.
  split; [|split; [|split]].
  - apply (C4_translation (Obj.point 4 2 1) (Obj.point 4 2 3)). reflexivity.
  - apply (C4_translation (Obj.point 0 0 1) (Obj.point 1 1 1));
      [by vm_compute | reflexivity].
  - apply (C4_translation (Obj.point 0 5 1) (Obj.point 3 5 1));
      by vm_compute.
  - apply (C4_translation (Obj.point 2 0 1) (Obj.point 2 7 1));
      by vm_compute.
Defined.

(** C10, as the code has it: when both the row and the column of the
    left location differ from the right's and the left ROW is not zero,
    [get_translation] returns distance 2 and the transform whose only
    key is ["w"], mapped to [left.row - right.row]; the column
    displacement appears under no key. *)
Theorem C10_translation_row_offset (l r : Object) :
  row l ≠ row r → col l ≠ col r → row l ≠ 0 →
  get_translation l r = (2, {["w" := row l - row r]})
  ∧ dom (get_translation l r).2 = {["w"]}
  ∧ (∀ key, (get_translation l r).2 !! key = Some (col l - col r) →
            key = "w" ∧ col l - col r = row l - row r).
Proof.
  intros Hr Hc H0.
  assert (get_translation l r = (2, {["w" := row l - row r]})) as ->
    by translation_cases.
  cbn [snd]. split; [done|]. split; [by rewrite dom_singleton_L|].
  intros key Hkey. apply lookup_singleton_Some in Hkey as [<- Heq]. done.
Qed.

(** The left object is off the origin with its row at zero: the code
    proposes ["j"] at distance 1, not the row offset. *)
Lemma C10_counterexample :
  let l := Obj.point 0 1 1 in
  let r := Obj.point 1 2 1 in
  row l ≠ row r ∧ col l ≠ col r ∧ Obj.loc l ≠ (0, 0)
  ∧ get_translation l r = (1, {["j" := 0]})
  ∧ get_translation l r ≠ (2, {["w" := row l - row r]}).
Proof. repeat split; by vm_compute. Qed.

Lemma C10_witness :
  get_translation (Obj.point 2 3 1) (Obj.point 5 7 1) = (2, {["w" := -3]})
  ∧ dom (get_translation (Obj.point 2 3 1) (Obj.point 5 7 1)).2 = {["w"]}.
Proof.
  pose proof (C10_translation_row_offset (Obj.point 2 3 1) (Obj.point 5 7 1))
    as Hthm.
  cbn [row col Obj.point] in Hthm.
  destruct Hthm as (Heq & Hdom & _); [lia | lia | lia |].
  split; [exact Heq | exact Hdom].
Defined.

(** ** Resize *)

Lemma mjoin_cons {A} (x : list A) (l : list (list A)) :
  mjoin (x :: l) = x ++ mjoin l.
Proof. reflexivity. Qed.

Lemma length_join_replicate {A} (n : nat) (l : list A) :
  length (mjoin (replicate n l)) = (n * length l)%nat.
Proof.
  induction n as [|n IH]; [reflexivity|].
  change (mjoin (replicate (S n) l)) with (l ++ mjoin (replicate n l)).
  rewrite length_app, IH. lia.
Qed.

Lemma tile_rows (g : Grid) (v h : nat) :
  np.rows (np.tile g v h) = Z.of_nat v * np.rows g.
Proof.
  unfold np.rows, np.tile. rewrite length_join_replicate, length_fmap. lia.
Qed.

Lemma tile_cols (r : list Z) (g : Grid) (v h : nat) :
  np.cols (np.tile (r :: g) (S v) h) = Z.of_nat h * Z.of_nat (length r).
Proof.
  unfold np.cols, np.tile.
  change (hd [] (mjoin (replicate (S v) ((λ r, mjoin (replicate h r)) <$> r :: g))))
    with (hd [] ((mjoin (replicate h r)
                    :: ((λ r, mjoin (replicate h r)) <$> g))
                 ++ mjoin (replicate v ((λ r, mjoin (replicate h r)) <$> r :: g)))).
  cbn [app hd]. rewrite length_join_replicate. lia.
Qed.

(** The shape of a point expanded by a generator. *)
Lemma shape_point (r c k : Z) (gen : option (gmap string Z)) tr :
  Obj.shape (mkObject r c k [] gen tr) =
    (Z.of_nat (Obj.copies gen "V"),
     match Obj.copies gen "V" with
     | O => 0
     | S _ => Z.of_nat (Obj.copies gen "H")
     end).
Proof.
  unfold Obj.shape. cbn [Obj.grid]. rewrite tile_rows. f_equal.
  - unfold np.rows. cbn [length]. lia.
  - destruct (Obj.copies gen "V") as [|v]; [reflexivity|].
    rewrite tile_cols. cbn [length]. lia.
Qed.

Lemma copies_insert_eq (m : gmap string Z) (key : string) (n : Z) :
  Obj.copies (Some (<[key := n - 1]> m)) key = Z.to_nat n.
Proof.
  unfold Obj.copies. cbn [from_option id]. rewrite lookup_insert_eq.
  cbn [from_option id]. f_equal. lia.
Qed.

Lemma copies_insert_ne (m : gmap string Z) (key key' : string) (n : Z) :
  key ≠ key' →
  Obj.copies (Some (<[key := n]> m)) key' = Obj.copies (Some m) key'.
Proof.
  intros Hne. unfold Obj.copies. cbn [from_option id].
  by rewrite lookup_insert_ne.
Qed.

(** [Scale.act] on a point that carries a generator. *)
Lemma scale_point (r c k : Z) (m : gmap string Z) tr (vertical horizontal : Z) :
  Actions.Scale.act (mkObject r c k [] (Some m) tr) vertical horizontal =
    mkObject r c k []
      (Some (let m := if bool_decide (vertical > 0)
                      then <["V" := vertical - 1]> m else m in
             if bool_decide (horizontal > 0)
             then <["H" := horizontal - 1]> m else m))
      tr.
Proof. reflexivity. Qed.

(** C5, as the code has it: when [a] is a single point that carries a
    generator, and neither [a] nor [b] carries a generator code other
    than ["V"] and ["H"], [Resize.act(a, b)] has the shape of [b],
    whatever the shape of [a] was. *)
Theorem C5_resize_point (a b : Object) :
  children a = [] → is_Some (generator a) →
  tiles_only a = true → tiles_only b = true →
  0 < (Obj.shape b).1 → 0 < (Obj.shape b).2 →
  Obj.shape (Actions.Resize.act a b) = Obj.shape b.
Proof.
  destruct a as [r c k kids gen tr]. cbn [children generator].
  intros -> [m ->] _ _. destruct (Obj.shape b) as [h w] eqn:Hb. cbn [fst snd].
  intros Hh Hw. unfold Actions.Resize.act. rewrite copy_unchanged, Hb.
  cbn [fst snd]. rewrite (shape_point r c k (Some m) tr). cbn [fst snd].
  repeat case_bool_decide;
    rewrite ?scale_point; cbv zeta;
    repeat first [ rewrite bool_decide_eq_true_2 by lia
                 | rewrite bool_decide_eq_false_2 by lia ];
    rewrite ?shape_point;
    repeat first [ rewrite copies_insert_eq
                 | rewrite copies_insert_ne by done ];
    repeat match goal with
           | |- context [match ?n with O => _ | S _ => _ end] =>
               destruct n eqn:?
           | H : context [match ?n with O => _ | S _ => _ end] |- _ =>
               destruct n eqn:?
           end;
    f_equal; lia.
Qed.

(** The objects of [test_resize]. *)
Example resize_test :
  let obj1 := mkObject 0 0 10 [] (Some {["V" := 5; "H" := 3]}) ∅ in
  let obj2 := mkObject 2 1 10 [] (Some {["V" := 1; "H" := 1]}) ∅ in
  let obj4 := mkObject 1 5 10 [] (Some {["V" := 5; "H" := 1]}) ∅ in
  Obj.shape obj1 = (6, 4)
  ∧ Obj.shape (Actions.Resize.act obj1 obj2) = (2, 2)
  ∧ Obj.shape (Actions.Resize.act obj1 obj4) = (6, 2).
Proof. repeat split. Qed.

(** Three objects [a] that [Resize.act] cannot bring to the shape of
    [b]: a column of two points without a generator against a single
    point (scaling never goes below the cell); the same column carrying
    a generator against a three-row object (the code counts cells, not
    rows); a point without a generator against a two-row object (there
    are no codes to change). *)
Lemma C5_counterexample :
  (let a := mkObject 0 0 10 [Obj.point 0 0 1; Obj.point 1 0 1] None ∅ in
   let b := Obj.point 0 0 1 in
   Obj.shape a = (2, 1) ∧ Obj.shape b = (1, 1)
   ∧ Obj.shape (Actions.Resize.act a b) = (2, 1)
   ∧ Obj.shape (Actions.Resize.act a b) ≠ Obj.shape b)
  ∧ (let a := mkObject 0 0 10 [Obj.point 0 0 1; Obj.point 1 0 1]
                (Some {["V" := 1]}) ∅ in
     let b := mkObject 0 0 1 [] (Some {["V" := 2]}) ∅ in
     Obj.shape a = (4, 1) ∧ Obj.shape b = (3, 1)
     ∧ Obj.shape (Actions.Resize.act a b) = (6, 1)
     ∧ Obj.shape (Actions.Resize.act a b) ≠ Obj.shape b)
  ∧ (let a := Obj.point 1 1 1 in
     let b := mkObject 0 0 1 [] (Some {["V" := 1]}) ∅ in
     Obj.shape a = (1, 1) ∧ Obj.shape b = (2, 1)
     ∧ Actions.Resize.act a b = a
     ∧ Obj.shape (Actions.Resize.act a b) ≠ Obj.shape b).
Proof. repeat split; by vm_compute. Qed.

Lemma C5_witness :
  Obj.shape
    (Actions.Resize.act
       (mkObject 0 0 10 [] (Some {["V" := 5; "H" := 3]}) ∅)
       (mkObject 0 0 10 [Obj.point 0 0 1; Obj.point 1 0 1; Obj.point 2 2 4]
          None ∅))
  = (3, 3).
Proof.
  apply (C5_resize_point
           (mkObject 0 0 10 [] (Some {["V" := 5; "H" := 3]}) ∅)
           (mkObject 0 0 10 [Obj.point 0 0 1; Obj.point 1 0 1; Obj.point 2 2 4]
              None ∅)).
  - reflexivity.
  - by eexists.
  - by vm_compute.
  - by vm_compute.
  - by vm_compute.
  - by vm_compute.
Defined.

(** ** find_closest *)

Section find_closest_spec.
Context `{ObjectOrder}.

Lemma closest_scan_first (obj first : Object) (rest : list Object) :
  ∃ i best,
    first_closest obj (first :: rest) i best
    ∧ closest_scan obj (delta_to obj first) rest = delta_to obj best.
Proof.
  induction rest as [|x rest IH] using rev_ind.
  - exists 0%nat, first. split; [|reflexivity]. split; [reflexivity|].
    split.
    + intros c Hc. apply list_elem_of_singleton in Hc as ->. lia.
    + intros j c Hj. lia.
  - destruct IH as (i & best & (Hi & Hmin & Hfirst) & Hscan).
    unfold closest_scan in *. rewrite foldl_app. cbn [foldl].
    rewrite Hscan. fold (delta_to obj x).
    change (first :: rest ++ [x]) with ((first :: rest) ++ [x]).
    case_bool_decide as Hlt.
    + exists (length (first :: rest)), x. split; [|reflexivity].
      split; [|split].
      * rewrite lookup_app_r by lia. by rewrite Nat.sub_diag.
      * intros c Hc. apply elem_of_app in Hc as [Hc|Hc].
        -- specialize (Hmin c Hc). lia.
        -- apply list_elem_of_singleton in Hc as ->. lia.
      * intros j c Hj Hc. rewrite lookup_app_l in Hc by lia.
        apply list_elem_of_lookup_2 in Hc. specialize (Hmin c Hc). lia.
    + exists i, best. split; [|reflexivity]. split; [|split].
      * apply lookup_app_l_Some. exact Hi.
      * intros c Hc. apply elem_of_app in Hc as [Hc|Hc].
        -- by apply Hmin.
        -- apply list_elem_of_singleton in Hc as ->. lia.
      * intros j c Hj Hc. apply (Hfirst j c Hj).
        apply lookup_lt_Some in Hi.
        rewrite lookup_app_l in Hc by lia. exact Hc.
Qed.

(** C6: with a numeric threshold, [find_closest] returns [None] for an
    empty inventory and when every candidate's delta is farther than the
    threshold (the minimum exceeds it); otherwise it returns the delta
    of a candidate of minimal distance, the first one in the inventory
    among those that tie. *)
Theorem C6_find_closest (obj : Object) (inventory : list Object)
    (threshold : Q) :
  (inventory = [] → find_closest obj inventory (Some threshold) = None)
  ∧ (inventory ≠ [] →
     (∀ c, c ∈ inventory → (threshold < inject_Z (dist (delta_to obj c)))%Q) →
     find_closest obj inventory (Some threshold) = None)
  ∧ (∀ c, c ∈ inventory →
     (inject_Z (dist (delta_to obj c)) <= threshold)%Q →
     ∃ i best,
       first_closest obj inventory i best
       ∧ find_closest obj inventory (Some threshold)
         = Some (delta_to obj best)).
Proof.
  split; [by intros ->|].
  destruct inventory as [|first rest]; [split; [done|]|].
  { intros c Hc. by apply elem_of_nil in Hc. }
  destruct (closest_scan_first obj first rest)
    as (i & best & Hbest & Hscan).
  unfold find_closest. fold (delta_to obj first). rewrite Hscan.
  split.
  - intros _ Hfar.
    destruct Hbest as (Hi & _ & _). apply list_elem_of_lookup_2 in Hi.
    specialize (Hfar best Hi).
    destruct (Qle_bool _ threshold) eqn:Hle; [|reflexivity].
    apply Qle_bool_iff in Hle. exfalso. by apply (Qlt_not_le _ _ Hfar).
  - intros c Hc Hnear. exists i, best. split; [exact Hbest|].
    destruct Hbest as (_ & Hmin & _). specialize (Hmin c Hc).
    assert (Qle_bool (inject_Z (dist (delta_to obj best))) threshold = true)
      as ->; [|reflexivity].
    apply Qle_bool_iff. eapply Qle_trans; [|exact Hnear].
    rewrite <- Zle_Qle. exact Hmin.
Qed.

(** Without a threshold ([threshold=None], as [Scene.recreate] calls
    it) a non-empty inventory always yields its first closest delta. *)
Lemma find_closest_no_threshold (obj first : Object) (rest : list Object) :
  ∃ i best,
    first_closest obj (first :: rest) i best
    ∧ find_closest obj (first :: rest) None = Some (delta_to obj best).
Proof.
  destruct (closest_scan_first obj first rest) as (i & best & Hbest & Hscan).
  exists i, best. split; [exact Hbest|].
  unfold find_closest. fold (delta_to obj first). by rewrite Hscan.
Qed.

End find_closest_spec.

(** Two candidates tie at distance 1; the earlier one is returned. *)
Example find_closest_tie :
  let inventory := [Obj.point 0 4 1; Obj.point 5 5 1; Obj.point 2 3 1] in
  (λ c, dist (@delta_to plain_order (Obj.point 0 3 1) c)) <$> inventory
    = [2; 1; 1]
  ∧ @find_closest plain_order (Obj.point 0 3 1) inventory (Some (3 # 2)%Q)
    = Some (@delta_to plain_order (Obj.point 0 3 1) (Obj.point 5 5 1))
  ∧ @find_closest plain_order (Obj.point 0 3 1) inventory (Some (3 # 4)%Q)
    = None.
Proof. repeat split. Qed.

Lemma C6_witness :
  let obj := Obj.point 0 3 1 in
  let inventory := [Obj.point 0 4 1; Obj.point 5 5 1; Obj.point 2 3 1] in
  @find_closest plain_order obj inventory (Some (3 # 4)%Q) = None
  ∧ ∃ i best,
      @first_closest plain_order obj inventory i best
      ∧ @find_closest plain_order obj inventory (Some (3 # 2)%Q)
        = Some (@delta_to plain_order obj best).
Proof.
  intros obj inventory. split.
  - apply (proj1 (proj2 (@C6_find_closest plain_order obj inventory (3 # 4)%Q)));
      [done|].
    intros c Hc. repeat (apply elem_of_cons in Hc as [->|Hc]);
      [by vm_compute..|by apply elem_of_nil in Hc].
  - apply (proj2 (proj2 (@C6_find_closest plain_order obj inventory (3 # 2)%Q))
             (Obj.point 5 5 1)).
    + apply elem_of_cons. right. apply elem_of_cons. by left.
    + by vm_compute.
Defined.

(** ** The decomposition board *)

Lemma Object_ind' (P : Object → Prop) :
  (∀ r c k kids gen tr, Forall P kids → P (mkObject r c k kids gen tr)) →
  ∀ o, P o.
Proof.
  intros Hnode. fix IH 1. intros [r c k kids gen tr]. apply Hnode.
  induction kids as [|kid kids IHkids]; constructor; [apply IH | exact IHkids].
Qed.

(** [_decomposition] reads nothing of the board but its processes. *)
Lemma decomposition_processes (b1 b2 : Board) :
  processes b1 = processes b2 →
  ∀ o, Board_._decomposition b1 o = Board_._decomposition b2 o.
Proof.
  intros Hp o. induction o as [r c k kids gen tr IH] using Object_ind'.
  cbn [Board_._decomposition]. case_bool_decide; [reflexivity|].
  case_bool_decide.
  - match goal with
    | |- match ?s1 kids 0%nat with _ => _ end
         = match ?s2 kids 0%nat with _ => _ end =>
        assert (∀ idx, s1 kids idx = s2 kids idx) as Hscan
    end.
    { clear -IH. induction IH as [|kid kids Hkid _ IHkids]; intros idx;
        [reflexivity|].
      cbn. rewrite IHkids, Hkid. reflexivity. }
    rewrite Hscan. reflexivity.
  - unfold Board_.generate_candidates. by rewrite Hp.
Qed.

Section board_facts.
Context `{ObjectCost}.

Lemma select_representation_fields (b : Board) :
  processes (Board_.select_representation b) = processes b
  ∧ proc_q (Board_.select_representation b) = proc_q b
  ∧ bank (Board_.select_representation b) = bank b.
Proof.
  unfold Board_.select_representation.
  destruct (Board_.select_scan _ _ _). done.
Qed.

(** What the scan of [select_representation] leaves: either the
    representation it started with, or the flattening of a scanned
    object whose cost was strictly below the starting bound; the bound
    never grows. *)
Lemma select_scan_result (best : Z) (r : Object) (objs : list Object) :
  let res := Board_.select_scan best r objs in
  res.1 ≤ best
  ∧ ((res.1 = best ∧ res.2 = r)
     ∨ ∃ o, o ∈ objs ∧ props o < best ∧ res.1 = props o ∧ res.2 = flatten o).
Proof.
  revert best r. induction objs as [|x objs IH]; intros best r.
  - cbn. split; [lia|]. by left.
  - unfold Board_.select_scan. cbn [foldl]. case_bool_decide as Hlt.
    + specialize (IH (props x) (flatten x)).
      unfold Board_.select_scan in IH. cbv zeta in IH.
      destruct IH as (Hle & [(Hbest & Hrep)|(o & Ho & Holt & Hbest & Hrep)]).
      * split; [lia|]. right. exists x.
        split; [apply elem_of_cons; by left|]. done.
      * split; [lia|]. right. exists o.
        split; [apply elem_of_cons; by right|].
        split; [lia|]. done.
    + specialize (IH best r).
      unfold Board_.select_scan in IH. cbv zeta in IH.
      destruct IH as (Hle & [(Hbest & Hrep)|(o & Ho & Holt & Hbest & Hrep)]).
      * split; [lia|]. by left.
      * split; [lia|]. right. exists o.
        split; [apply elem_of_cons; by right|]. done.
Qed.


Section monotone.

(** The condition of the statements of this section: flattening an
    object does not raise its cost. [flatten] and [props] live in the
    absent [arc/object.py]; [select_representation] compares
    [obj.props] and installs [obj.flatten()], and nothing in the
    sources relates the cost of the two. *)
Hypothesis flatten_props : ∀ o, props (flatten o) ≤ props o.






End monotone.

End board_facts.

(** On the example board a round of batch 1 replaces the root, of cost
    3, by the collapsed candidate, of cost 1, and leaves that candidate
    in the queue; the full run banks it. *)
Example demo_decompose :
  let b1 := @Board_.batch_decomposition node_cost demo_board 1 in
  let b2 := @Board_.decompose node_cost demo_board 10 10 in
  @props node_cost (rep demo_board) = 3
  ∧ @props node_cost (rep b1) = 1 ∧ length (proc_q b1) = 1%nat ∧ bank b1 = []
  ∧ @props node_cost (rep b2) = 1 ∧ proc_q b2 = [] ∧ length (bank b2) = 1%nat.
Proof. repeat split. Qed.




Section batch_facts.
Context `{ObjectCost}.

Lemma batch_item_after_item (b : Board) (obj : Object) (q : list Object) :
  Board_.batch_item b obj q = after_item b obj q.
Proof.
  unfold Board_.batch_item, after_item.
  destruct (Board_._decomposition b obj); reflexivity.
Qed.

Lemma after_item_fields (b : Board) (obj : Object) (q : list Object) :
  processes (after_item b obj q) = processes b
  ∧ proc_q (after_item b obj q) = q ++ Board_._decomposition b obj
  ∧ bank (after_item b obj q) =
      bank b ++ (if bool_decide (Board_._decomposition b obj = [])
                 then [flatten obj] else []).
Proof.
  unfold after_item.
  destruct (select_representation_fields
    (mkBoard (rep b) (processes b) (q ++ Board_._decomposition b obj)
       (match Board_._decomposition b obj with
        | [] => bank b ++ [flatten obj]
        | _ => bank b
        end))) as (-> & -> & ->).
  cbn [processes proc_q bank]. repeat split.
  destruct (Board_._decomposition b obj); cbn; [done|by rewrite app_nil_r].
Qed.

(** The loop pops from the front until the queue is empty or the batch
    is used up. *)
Lemma batch_loop_pops (n : nat) (b : Board) :
  ∃ popped,
    pops b popped (Board_.batch_loop n b)
    ∧ (length popped ≤ n)%nat
    ∧ (length popped = n ∨ proc_q (Board_.batch_loop n b) = []).
Proof.
  revert b. induction n as [|n IH]; intros b; cbn [Board_.batch_loop].
  - exists []. split; [constructor|]. split; [done|by left].
  - destruct (proc_q b) as [|obj q] eqn:Hq.
    + exists []. split; [constructor|]. split; [cbn; lia|by right].
    + rewrite batch_item_after_item.
      destruct (IH (after_item b obj q)) as (popped & Hpops & Hlen & Hstop).
      exists (obj :: popped). split; [by econstructor|].
      cbn [length]. split; [lia|]. destruct Hstop; [left; lia|by right].
Qed.

(** First in, first out: the objects popped are a prefix of the queue
    extended, in order, by the candidates of each of them; the bank
    grows by the flattened objects that had no candidates. *)
Lemma pops_fifo (b b' : Board) (popped : list Object) :
  pops b popped b' →
  processes b' = processes b
  ∧ proc_q b ++ mjoin (Board_._decomposition b <$> popped)
    = popped ++ proc_q b'
  ∧ bank b' = bank b ++
      (flatten <$> filter (λ o, Board_._decomposition b o = []) popped).
Proof.
  induction 1 as [b|b obj q popped b' Hq _ IH].
  - cbn. by rewrite !app_nil_r.
  - destruct (after_item_fields b obj q) as (Hprocs & Hqueue & Hbank).
    destruct IH as (IHprocs & IHqueue & IHbank).
    assert (∀ o, Board_._decomposition (after_item b obj q) o
                 = Board_._decomposition b o) as Hsame
      by (apply decomposition_processes; exact Hprocs).
    assert (Board_._decomposition (after_item b obj q) <$> popped
            = Board_._decomposition b <$> popped) as Hmap
      by (apply list_fmap_ext; intros _ o _; apply Hsame).
    rewrite Hmap in IHqueue.
    split; [congruence|]. split.
    + rewrite Hq, fmap_cons, mjoin_cons, <- !app_comm_cons. f_equal.
      rewrite <- IHqueue, Hqueue, <- app_assoc. reflexivity.
    + rewrite IHbank, Hbank, <- app_assoc. f_equal.
      rewrite filter_cons.
      rewrite (list_filter_iff _ (λ o, Board_._decomposition b o = []))
        by (intros o; by rewrite Hsame).
      destruct (decide (Board_._decomposition b obj = [])) as [Hnil|Hcons].
      * by rewrite bool_decide_eq_true_2.
      * by rewrite bool_decide_eq_false_2.
Qed.

(** C7: a call [batch_decomposition(batch)] pops at most [batch] objects
    from the front of [proc_q], in queue order, stopping early only on
    an empty queue; each popped object without candidates from
    [_decomposition] is flattened and appended to [bank], the candidates
    of each other one are all appended to the back of [proc_q], and
    [select_representation] runs after every popped item. *)
Theorem C7_batch_decomposition (b : Board) (batch : Z) :
  let b' := Board_.batch_decomposition b batch in
  ∃ popped,
    pops b popped b'
    ∧ Z.of_nat (length popped) ≤ Z.max 0 batch
    ∧ (Z.of_nat (length popped) = Z.max 0 batch ∨ proc_q b' = [])
    ∧ proc_q b ++ mjoin (Board_._decomposition b <$> popped)
      = popped ++ proc_q b'
    ∧ bank b' = bank b ++
        (flatten <$> filter (λ o, Board_._decomposition b o = []) popped).
Proof.
  cbv zeta. unfold Board_.batch_decomposition.
  destruct (batch_loop_pops (Z.to_nat batch) b) as (popped & Hpops & Hlen & Hstop).
  exists popped. split; [exact Hpops|].
  split; [lia|]. split; [destruct Hstop; [left; lia|by right]|].
  destruct (pops_fifo _ _ _ Hpops) as (_ & Hqueue & Hbank). done.
Qed.

End batch_facts.

(** ** Template.get_base *)

Module TemplateFacts.
Import Template.

Lemma getitem_child_at (node : StructureDef) (i : Z) :
  getitem (children node) i =
    match child_at node i with
    | Some child => ret child
    | None => raise IndexError
    end.
Proof.
  unfold getitem, child_at. cbv zeta.
  set (n := Z.of_nat (length (children node))).
  assert (∀ k, 0 ≤ k < n → is_Some (children node !! Z.to_nat k)) as Hin.
  { intros k Hk. apply lookup_lt_is_Some. lia. }
  repeat case_bool_decide; try lia;
    try (match goal with
         | |- context [children node !! Z.to_nat ?k] =>
             destruct (Hin k) as [child ->]; [lia|reflexivity]
         end);
    reflexivity.
Qed.

(** The loop returns the last node a lookup succeeded on, or the node
    it started from, and logs one warning per failed lookup. *)
Lemma get_base_loop_spec (base : BaseObjectPath) (idxs : list Z)
    (node : StructureDef) :
  get_base_loop base idxs node =
    ((λ _, warning "Can't access base path" base) <$> failures idxs node,
     inr (default node (last (reached idxs node)))).
Proof.
  revert node. induction idxs as [|i idxs IH]; intros node; [reflexivity|].
  cbn [get_base_loop reached failures]. rewrite getitem_child_at.
  destruct (child_at node i) as [child|].
  - cbn. rewrite IH. cbn. f_equal. f_equal.
    destruct (reached idxs child) as [|r rs] eqn:Hr; [reflexivity|].
    rewrite last_cons_cons.
    destruct (last (r :: rs)) eqn:Hlast; [reflexivity|].
    by apply last_None in Hlast.
  - cbn. rewrite IH. reflexivity.
Qed.

End TemplateFacts.

(** C8: for every structure tree and every base path, [get_base] never
    raises: it returns a node. Each child index that is out of range
    where it is tried logs one warning and leaves the current node in
    place, and the node returned is the last one that was successfully
    reached along the path, the root when none was. *)
Theorem C8_get_base_never_raises (base : Template.BaseObjectPath)
    (root : Template.StructureDef) :
  ∃ log node,
    Template.get_base base root = (log, inr node)
    ∧ node = default root (last (Template.reached base root))
    ∧ log = (λ _, Template.warning "Can't access base path" base)
              <$> Template.failures base root
    ∧ length log = length (Template.failures base root).
Proof.
  eexists _, _. split; [|split; [reflexivity|split; [reflexivity|]]].
  - unfold Template.get_base. destruct base as [|i base]; [reflexivity|].
    apply TemplateFacts.get_base_loop_spec.
  - apply length_fmap.
Qed.

(** A tree [root -> a -> leaf]. On the path (0, 0) the walk reaches the
    leaf silently; on (0, 7) it stops at [a] with one warning; on (5, 0)
    the failed first index is skipped and the walk goes on from the
    root, reaching [a]; the index -1 is the last child, as in Python. *)
Example get_base_paths :
  let leaf := Template.mkStructureDef {["color" := Template.Known 3]} [] in
  let a := Template.mkStructureDef ∅ [leaf] in
  let root := Template.mkStructureDef ∅ [a] in
  Template.get_base [] root = ([], inr root)
  ∧ Template.get_base [0; 0] root = ([], inr leaf)
  ∧ Template.get_base [0; 7] root
    = ([Template.warning "Can't access base path" [0; 7]], inr a)
  ∧ Template.get_base [5; 0] root
    = ([Template.warning "Can't access base path" [5; 0]], inr a)
  ∧ Template.get_base [-1; -1] root = ([], inr leaf).
Proof. repeat split. Qed.

(** ** The location actions *)

Lemma translate_fields (o : Object) (dr dc : Z) :
  Actions.Translate.act o dr dc =
    mkObject (row o + dr) (col o + dc) (color o) (children o) (generator o)
      (traits o).
Proof. destruct o as [r c k kids [m|] tr]; reflexivity. Qed.

Lemma zero_fields (o : Object) :
  Actions.Zero.act o =
    mkObject 0 0 (color o) (children o) (generator o) (traits o).
Proof. destruct o as [r c k kids [m|] tr]; reflexivity. Qed.

Lemma object_eta (o : Object) :
  mkObject (row o) (col o) (color o) (children o) (generator o) (traits o) = o.
Proof. by destruct o. Qed.

(** Moving an object changes neither its grid nor its shape. *)
Lemma translate_grid (o : Object) (dr dc : Z) :
  Obj.grid (Actions.Translate.act o dr dc) = Obj.grid o.
Proof. rewrite translate_fields. by destruct o. Qed.

Lemma translate_shape (o : Object) (dr dc : Z) :
  Obj.shape (Actions.Translate.act o dr dc) = Obj.shape o.
Proof. unfold Obj.shape. by rewrite translate_grid. Qed.

Lemma translate_compose (o : Object) (a b c d : Z) :
  Actions.Translate.act (Actions.Translate.act o a b) c d
    = Actions.Translate.act o (a + c) (b + d).
Proof.
  rewrite !translate_fields. cbn [row col color children generator traits].
  f_equal; lia.
Qed.

Lemma translate_zero (o : Object) : Actions.Translate.act o 0 0 = o.
Proof. by rewrite translate_fields, !Z.add_0_r, object_eta. Qed.

(** X1: translations add up. Two translations in a row are the
    translation by the summed offsets, the zero offsets change nothing,
    vertical and horizontal moves commute and make up a translation, and
    a move is undone by the opposite move, as the four unit moves of
    [test_translations] are. *)
Theorem translate_additive (o : Object) (a b c d : Z) :
  Actions.Translate.act (Actions.Translate.act o a b) c d
    = Actions.Translate.act o (a + c) (b + d)
  ∧ Actions.Translate.act o 0 0 = o
  ∧ Actions.Vertical.act (Actions.Horizontal.act o b) a
    = Actions.Translate.act o a b
  ∧ Actions.Horizontal.act (Actions.Vertical.act o a) b
    = Actions.Translate.act o a b
  ∧ Actions.Translate.act (Actions.Translate.act o a b) (- a) (- b) = o
  ∧ Actions.Horizontal.act
      (Actions.Horizontal.act
         (Actions.Vertical.act (Actions.Vertical.act o (- a)) a) (- b)) b
    = o.
Proof.
  unfold Actions.Vertical.act, Actions.Horizontal.act.
  rewrite !translate_compose.
  split; [reflexivity|]. split; [apply translate_zero|].
  split; [f_equal; lia|]. split; [f_equal; lia|].
  split.
  - rewrite <- (translate_zero o) at 2. f_equal; lia.
  - rewrite <- (translate_zero o) at 2. f_equal; lia.
Qed.

Lemma justify_row (o : Object) :
  Actions.Justify.act o 0 = Actions.Translate.act o (- row o) 0.
Proof. reflexivity. Qed.

Lemma justify_col (o : Object) :
  Actions.Justify.act o 1 = Actions.Translate.act o 0 (- col o).
Proof. reflexivity. Qed.

(** X2: zeroing is justifying both axes, in either order, for every
    object; [test_translations] checks it on one point. Justifying an
    axis leaves the other coordinate alone, and zeroing twice is zeroing
    once. *)
Theorem zero_is_justify_twice (o : Object) :
  Actions.Zero.act o
    = Actions.Justify.act (Actions.Justify.act o 0) 1
  ∧ Actions.Zero.act o
    = Actions.Justify.act (Actions.Justify.act o 1) 0
  ∧ Obj.loc (Actions.Justify.act o 0) = (0, col o)
  ∧ Obj.loc (Actions.Justify.act o 1) = (row o, 0)
  ∧ Actions.Zero.act (Actions.Zero.act o) = Actions.Zero.act o.
Proof.
  rewrite !justify_row, !justify_col, !zero_fields, !translate_fields.
  unfold Obj.loc. cbn [row col color children generator traits].
  repeat split; f_equal; lia.
Qed.

(** X3: [Translate.inv] inverts [Translate.act] on locations. Applying
    the arguments it returns, the empty tuple included, moves [left] to
    the location of [right] and keeps its colour and grid. *)
Theorem translate_inv_round_trip (left right : Object) :
  ∃ result,
    Actions.Translate.act_star left (Actions.Translate.inv left right)
      = Some result
    ∧ Obj.loc result = Obj.loc right
    ∧ color result = color left
    ∧ Obj.grid result = Obj.grid left.
Proof.
  unfold Actions.Translate.inv. case_bool_decide as Hloc.
  - exists (Actions.Translate.act left 0 0). split; [reflexivity|].
    rewrite translate_zero. done.
  - exists (Actions.Translate.act left (row right - row left)
              (col right - col left)).
    split; [reflexivity|]. rewrite translate_grid, translate_fields.
    unfold Obj.loc. cbn [row col color]. repeat split. f_equal; lia.
Qed.

(** ** Tiling moves *)

Lemma tile_as_translate (o : Object) (nr nc : Z) :
  Actions.Tile.act o nr nc =
    Actions.Translate.act o (nr * (Obj.shape o).1) (nc * (Obj.shape o).2).
Proof. unfold Actions.Tile.act. by destruct (Obj.shape o). Qed.

(** X4: a tile move is a vertical tile move and a horizontal tile move,
    in either order, for every object and every pair of counts
    ([test_translations] has the counts 1 and 1): the shape that sizes
    the second move is not changed by the first. A tile move changes
    neither grid nor shape, and moves the anchor by whole shapes. *)
Theorem tile_consistency (o : Object) (nr nc : Z) :
  Actions.Tile.act o nr nc
    = Actions.VTile.act (Actions.HTile.act o nc) nr
  ∧ Actions.Tile.act o nr nc
    = Actions.HTile.act (Actions.VTile.act o nr) nc
  ∧ Obj.shape (Actions.Tile.act o nr nc) = Obj.shape o
  ∧ Obj.grid (Actions.Tile.act o nr nc) = Obj.grid o
  ∧ Obj.loc (Actions.Tile.act o nr nc)
    = (row o + nr * (Obj.shape o).1, col o + nc * (Obj.shape o).2).
Proof.
  unfold Actions.VTile.act, Actions.HTile.act.
  rewrite !tile_as_translate, !translate_shape, !translate_compose,
    translate_grid.
  split; [f_equal; lia|]. split; [f_equal; lia|].
  split; [reflexivity|]. split; [reflexivity|].
  by rewrite translate_fields.
Qed.

(** X5: [Tile.rearg] undoes [Tile.act]. For an object of non-empty
    shape, the offsets of a tile move by [(nr, nc)] are re-expressed as
    [(nr, nc)]; offsets that are not both multiples of the shape give
    [None]; and whenever arguments are returned, the tile move by them
    is the translation by the offsets. *)
Theorem tile_rearg_round_trip (o : Object) (dr dc nr nc : Z) :
  0 < (Obj.shape o).1 → 0 < (Obj.shape o).2 →
  Actions.Tile.rearg o (nr * (Obj.shape o).1) (nc * (Obj.shape o).2)
    = inr (Some [nr; nc])
  ∧ match Actions.Tile.rearg o dr dc with
    | inr (Some args) =>
        ∃ nr' nc', args = [nr'; nc']
          ∧ Actions.Tile.act o nr' nc' = Actions.Translate.act o dr dc
    | inr None =>
        dr `mod` (Obj.shape o).1 ≠ 0 ∨ dc `mod` (Obj.shape o).2 ≠ 0
    | inl _ => False
    end.
Proof.
  intros Hh Hw. unfold Actions.Tile.rearg. cbv zeta.
  rewrite !(bool_decide_eq_false_2 (_ = 0)) by lia. split.
  - rewrite !Z.mod_mul by lia.
    rewrite !(bool_decide_eq_false_2 (0 ≠ 0)) by lia.
    by rewrite !Z.div_mul by lia.
  - case_bool_decide as Hr; [by left|]. case_bool_decide as Hc; [by right|].
    eexists _, _. split; [reflexivity|].
    rewrite tile_as_translate. f_equal.
    + rewrite Z.mul_comm. symmetry. apply Z.div_exact; [lia|exact Hr].
    + rewrite Z.mul_comm. symmetry. apply Z.div_exact; [lia|exact Hc].
Qed.

Lemma tile_rearg_witness :
  Actions.Tile.rearg (mkObject 0 0 1 [] (Some {["V" := 1; "H" := 2]}) ∅) 6 (-3)
    = inr (Some [3; -1]).
Proof.
  destruct (tile_rearg_round_trip
              (mkObject 0 0 1 [] (Some {["V" := 1; "H" := 2]}) ∅) 0 0 3 (-1))
    as [Hrearg _]; [by vm_compute..|].
  exact Hrearg.
Defined.

(** X6: what the special translations keep of a general offset.
    [Zero.rearg] accepts exactly the offsets that lead to the origin,
    and then zeroing is that translation. [Justify.rearg] names the
    row when the row offset leads to row zero, whatever the column
    offset is, and else the column when the column offset leads to
    column zero; justifying by the axis it names is the translation by
    that one offset, the other offset being dropped. [Vertical.rearg]
    and [Horizontal.rearg] never refuse: they drop the other offset. *)
Theorem special_translation_rearg (o : Object) (dr dc : Z) :
  match Actions.Zero.rearg o dr dc with
  | Some args =>
      args = [] ∧ Actions.Zero.act o = Actions.Translate.act o dr dc
  | None => Obj.loc (Actions.Translate.act o dr dc) ≠ (0, 0)
  end
  ∧ match Actions.Justify.rearg o dr dc with
    | Some [axis] =>
        (axis = 0 ∧ Actions.Justify.act o axis = Actions.Translate.act o dr 0)
        ∨ (axis = 1 ∧ dr ≠ - row o
           ∧ Actions.Justify.act o axis = Actions.Translate.act o 0 dc)
    | Some _ => False
    | None => dr ≠ - row o ∧ dc ≠ - col o
    end
  ∧ Actions.Vertical.act o (hd 0 (Actions.Vertical.rearg o dr dc))
    = Actions.Translate.act o dr 0
  ∧ Actions.Horizontal.act o (hd 0 (Actions.Horizontal.rearg o dr dc))
    = Actions.Translate.act o 0 dc.
Proof.
  split; [|split; [|split; reflexivity]].
  - unfold Actions.Zero.rearg. case_bool_decide as Hz.
    + destruct Hz as [-> ->]. split; [reflexivity|].
      rewrite zero_fields, translate_fields. f_equal; lia.
    + rewrite translate_fields. unfold Obj.loc. cbn [row col].
      intros [= ? ?]. apply Hz. lia.
  - unfold Actions.Justify.rearg. case_bool_decide as Hr.
    + left. split; [reflexivity|]. rewrite justify_row. by rewrite Hr.
    + case_bool_decide as Hc; [|done].
      right. split; [reflexivity|]. split; [exact Hr|].
      rewrite justify_col. by rewrite Hc.
Qed.

(** ** Orthogonal.inv *)

Lemma orthogonal_act_unfold (o : Object) (reflection rotation : Z) :
  Actions.Orthogonal.act o reflection rotation =
    let result :=
      if bool_decide (reflection = 1) then Actions.VFlip.act o
      else if bool_decide (reflection = 2) then Actions.HFlip.act o
      else o in
    if bool_decide (rotation > 0) then Actions.Rotate.act result rotation
    else result.
Proof. unfold Actions.Orthogonal.act. by rewrite copy_unchanged. Qed.

(** X7: [Orthogonal.inv] never returns wrong arguments. Its answer is
    the empty tuple or a pair of a reflection code in 0..2 and a turn
    count in 0..3, never the identity pair (0, 0); and applying a pair
    it returns to the zeroed left object gives an object equal to the
    zeroed right object. *)
Theorem orthogonal_inv_sound (left right : Object) :
  match Actions.Orthogonal.inv left right with
  | [] => True
  | [reflection; rotation] =>
      0 ≤ reflection ≤ 2 ∧ 0 ≤ rotation ≤ 3
      ∧ (reflection, rotation) ≠ (0, 0)
      ∧ Obj.eqb
          (Actions.Orthogonal.act (Actions.Zero.act left) reflection rotation)
          (Actions.Zero.act right) = true
  | _ => False
  end.
Proof.
  unfold Actions.Orthogonal.inv.
  destruct (_ || _ || _); [done|].
  generalize (Actions.Zero.act left) (Actions.Zero.act right). intros l r.
  destruct (Obj.eqb l r) eqn:Hsame; [done|].
  assert (Actions.Orthogonal.act l 0 0 = l) as Hid by apply copy_unchanged.
  cbn [Actions.Orthogonal.try_reflections Actions.Orthogonal.try_rotations].
  cbv beta. rewrite Hid, Hsame.
  unfold Actions.Orthogonal.o_arg, Actions.VFlip.o_arg, Actions.HFlip.o_arg.
  repeat match goal with
         | |- context [Obj.eqb ?a r] =>
             lazymatch a with
             | Actions.Orthogonal.act _ _ _ => fail
             | _ => destruct (Obj.eqb a r) eqn:?
             end
         end;
    try done;
    (split; [lia|split; [lia|split; [done|]]]);
    rewrite orthogonal_act_unfold; cbv zeta;
    repeat first [ rewrite bool_decide_eq_true_2 by lia
                 | rewrite bool_decide_eq_false_2 by lia ];
    assumption.
Qed.

(** ** Scale *)

Lemma scale_generator (o : Object) (vertical horizontal : Z) :
  Actions.Scale.act o vertical horizontal =
    mkObject (row o) (col o) (color o) (children o)
      (match generator o with
       | Some m =>
           Some (let m := if bool_decide (vertical > 0)
                          then <["V" := vertical - 1]> m else m in
                 if bool_decide (horizontal > 0)
                 then <["H" := horizontal - 1]> m else m)
       | None => None
       end)
      (traits o).
Proof. destruct o as [r c k kids [m|] tr]; reflexivity. Qed.

(** X8: [Scale.act] is its two one-axis variants, in either order, and
    with no positive argument it changes nothing; it never touches the
    anchor or the children of an object. *)
Theorem scale_factors (o : Object) (v h : Z) :
  Actions.Scale.act o v h
    = Actions.HScale.act (Actions.VScale.act o v) h
  ∧ Actions.Scale.act o v h
    = Actions.VScale.act (Actions.HScale.act o h) v
  ∧ Actions.Scale.act o (Z.min v 0) (Z.min h 0) = o
  ∧ Obj.anchor (Actions.Scale.act o v h) = Obj.anchor o
  ∧ children (Actions.Scale.act o v h) = children o.
Proof.
  unfold Actions.VScale.act, Actions.HScale.act.
  rewrite !scale_generator. cbn [row col color children generator traits].
  rewrite !(bool_decide_eq_false_2 (0 > 0)) by lia.
  rewrite !(bool_decide_eq_false_2 (Z.min _ 0 > 0)) by lia.
  split; [|split; [|split; [|done]]].
  - f_equal. by destruct (generator o).
  - f_equal. destruct (generator o) as [m|]; [|done]. cbv zeta. f_equal.
    repeat case_bool_decide; try done. by apply insert_insert_ne.
  - by destruct o as [r c k kids [m|] tr].
Qed.

(** X9: scaling overwrites the generator codes, it does not accumulate
    them. A scaling with two positive arguments cancels whatever scaling
    came before it, and rescaling an axis to one more than the code it
    had gives the object back, as [test_deformations] checks on a
    square. *)
Theorem scale_overwrites (o : Object) (m : gmap string Z) (c v h v' h' : Z) :
  generator o = Some m → m !! "V" = Some c → 0 ≤ c → 0 < v' → 0 < h' →
  Actions.Scale.act (Actions.Scale.act o v h) v' h' = Actions.Scale.act o v' h'
  ∧ Actions.Scale.act (Actions.Scale.act o v 0) (c + 1) 0 = o
  ∧ Obj.codes (Actions.Scale.act o v' h') !! "V" = Some (v' - 1)
  ∧ Obj.codes (Actions.Scale.act o v' h') !! "H" = Some (h' - 1).
Proof.
  intros Hgen HV Hc Hv' Hh'. rewrite !scale_generator, Hgen.
  cbn [row col color children generator traits Obj.codes from_option id].
  rewrite !(bool_decide_eq_true_2 (v' > 0)) by lia.
  rewrite !(bool_decide_eq_true_2 (h' > 0)) by lia.
  rewrite !(bool_decide_eq_true_2 (c + 1 > 0)) by lia.
  rewrite !(bool_decide_eq_false_2 (0 > 0)) by lia. cbv zeta.
  split; [|split; [|split]].
  - f_equal. f_equal. apply map_eq. intros key.
    destruct (decide (key = "H")) as [->|HnH];
      [by rewrite !lookup_insert_eq|].
    rewrite !(lookup_insert_ne _ "H") by done.
    destruct (decide (key = "V")) as [->|HnV];
      [by rewrite !lookup_insert_eq|].
    rewrite !(lookup_insert_ne _ "V") by done.
    repeat case_bool_decide;
      rewrite ?(lookup_insert_ne _ "H"), ?(lookup_insert_ne _ "V") by done;
      reflexivity.
  - transitivity (mkObject (row o) (col o) (color o) (children o) (Some m)
                    (traits o));
      [|rewrite <- Hgen; apply object_eta].
    f_equal. f_equal. replace (c + 1 - 1) with c by lia.
    case_bool_decide; [rewrite insert_insert_eq|]; by apply insert_id.
  - rewrite lookup_insert_ne by done. by rewrite lookup_insert_eq.
  - by rewrite lookup_insert_eq.
Qed.

Lemma scale_overwrites_witness :
  let square := mkObject 1 1 1 [] (Some {["H" := 4; "V" := 4]}) ∅ in
  Actions.Scale.act (Actions.Scale.act square 2 0) 5 0 = square.
Proof.
  intros square.
  apply (scale_overwrites square {["H" := 4; "V" := 4]} 4 2 0 1 1);
    [reflexivity | by vm_compute | lia | lia | lia].
Defined.

(** ** Adjoin and Align *)

(** X10: [Adjoin.act] and [Align.act] move the object along one axis at
    most, the rows when the vector has a row part; they leave it where
    it is when the vector is zero, and never change its grid or
    colour. *)
Theorem pairwise_moves_one_axis (chebyshev_vector : Object → Object → Z * Z)
    (o s : Object) :
  let moved := [Actions.Adjoin.act chebyshev_vector o s;
                Actions.Align.act chebyshev_vector o s] in
  Forall (λ r, (row r = row o ∨ col r = col o)
               ∧ ((chebyshev_vector o s).1 ≠ 0 → col r = col o)
               ∧ ((chebyshev_vector o s).1 = 0 → row r = row o)
               ∧ (chebyshev_vector o s = (0, 0) → r = o)
               ∧ Obj.grid r = Obj.grid o
               ∧ color r = color o) moved
  ∧ Actions.Adjoin.act chebyshev_vector o s =
      (if bool_decide ((chebyshev_vector o s).1 ≠ 0)
       then Actions.Vertical.act o (chebyshev_vector o s).1
       else Actions.Horizontal.act o (chebyshev_vector o s).2).
Proof.
  cbv zeta. unfold Actions.Adjoin.act, Actions.Align.act.
  rewrite !copy_unchanged.
  destruct (chebyshev_vector o s) as [vr vc]. cbn [fst snd].
  split.
  - repeat case_bool_decide;
      repeat match goal with
             | |- Forall _ _ => constructor
             | |- _ ∧ _ => split
             end;
      rewrite ?translate_grid, ?translate_fields;
      cbn [row col color];
      first [ done | lia | left; lia | right; lia
            | intros [= ? ?]; lia ].
  - unfold Actions.Vertical.act, Actions.Horizontal.act.
    repeat case_bool_decide; try done.
    assert (vc = 0) as -> by lia. by rewrite translate_zero.
Qed.

(** ** Bounds of the comparisons *)

#[local] Set Warnings "-clear-no-such-hyp".

(** X11: [get_translation] charges 0, 1 or 2 and never [MAX_DIST]; it
    charges 0 exactly when the locations are equal, which is also
    exactly when it proposes nothing; otherwise it proposes one entry,
    under one of the keys ["z"], ["j"], ["w"] and ["s"]. *)
Theorem translation_bounds (l r : Object) :
  0 ≤ (get_translation l r).1 ≤ 2
  ∧ ((get_translation l r).1 = 0 ↔ Obj.loc l = Obj.loc r)
  ∧ ((get_translation l r).2 = ∅ ↔ Obj.loc l = Obj.loc r)
  ∧ (size (get_translation l r).2 ≤ 1)%nat
  ∧ dom (get_translation l r).2 ⊆ ({["z"; "j"; "w"; "s"]} : gset string).
Proof.
  destruct (decide (Obj.loc l = Obj.loc r)) as [Heq|Hne].
  - rewrite (translation_same_loc l r Heq). cbn [fst snd].
    rewrite dom_empty_L, map_size_empty.
    repeat split; first [done | lia | set_solver].
  - assert (∃ d key v, get_translation l r = (d, {[key := v]})
                       ∧ 1 ≤ d ≤ 2 ∧ key ∈ ["z"; "j"; "w"; "s"])
      as (d & key & v & -> & Hd & Hkey).
    { apply loc_ne in Hne. unfold get_translation, Obj.loc. cbv iota beta.
      repeat case_bool_decide; try lia;
        eexists _, _, _; (split; [reflexivity|]); (split; [lia|]);
        rewrite !elem_of_cons; auto 10. }
    cbn [fst snd]. rewrite map_size_singleton, dom_singleton_L.
    split; [lia|]. split; [split; [lia|done]|].
    split; [split; [|done]|].
    { intros Hempty. apply (f_equal (λ m, m !! key)) in Hempty.
      by rewrite lookup_singleton_eq, lookup_empty in Hempty. }
    split; [done|].
    repeat (apply elem_of_cons in Hkey as [->|Hkey]);
      [set_unfold; intros ? ->; auto 10..|].
    by apply elem_of_nil in Hkey.
Qed.

(** X12: [get_color_diff] charges 0, 2 or [MAX_DIST]; it charges 0
    exactly when both sides show the same set of colours, and then
    proposes nothing; the distance, unlike the transform, does not
    depend on the order of the two objects. *)
Theorem color_diff_bounds (l r : Object) :
  (get_color_diff l r).1 ∈ [0; 2; cst.MAX_DIST]
  ∧ ((get_color_diff l r).1 = 0 ↔ color_set l = color_set r)
  ∧ (color_set l = color_set r → get_color_diff l r = (0, ∅))
  ∧ (get_color_diff l r).1 = (get_color_diff r l).1
  ∧ dom (get_color_diff l r).2 ⊆ ({["c"]} : gset string).
Proof.
  rewrite !color_diff_unfold.
  destruct (decide (color_set l = color_set r)) as [Heq|Hne].
  - rewrite !bool_decide_eq_false_2 by (intros Hn; by apply Hn).
    cbn [fst snd]. rewrite dom_empty_L.
    repeat split; try done. rewrite !elem_of_cons. by left.
  - rewrite !(bool_decide_eq_true_2 (_ ≠ _)) by (intros Hn; by apply Hne).
    rewrite (bool_decide_ext (monochrome r ∧ monochrome l)
               (monochrome l ∧ monochrome r)) by tauto.
    case_bool_decide; cbn [fst snd].
    + rewrite dom_singleton_L. repeat split; try done; try lia.
      rewrite !elem_of_cons. auto.
    + rewrite dom_empty_L. repeat split; try done.
      rewrite !elem_of_cons. auto.
Qed.

Section order_diff_bounds.
Context `{ObjectOrder}.

(** X13: [get_order_diff] either gives up with [MAX_DIST] and an empty
    transform, or charges 2 for each entry it proposes: at most a
    ["f"] carrying the left height minus one and a ["p"] carrying the
    left width minus one, so 0, 2 or 4 in all. *)
Theorem order_diff_bounds (l r : Object) :
  get_order_diff l r = (cst.MAX_DIST, ∅)
  ∨ ((get_order_diff l r).1 = 2 * Z.of_nat (size (get_order_diff l r).2)
     ∧ (size (get_order_diff l r).2 ≤ 2)%nat
     ∧ dom (get_order_diff l r).2 ⊆ ({["f"; "p"]} : gset string)
     ∧ (∀ v, (get_order_diff l r).2 !! "f" = Some v →
             v = (Obj.shape l).1 - 1 ∧ (Obj.shape l).1 ≠ (Obj.shape r).1)
     ∧ (∀ v, (get_order_diff l r).2 !! "p" = Some v →
             v = (Obj.shape l).2 - 1 ∧ (Obj.shape l).2 ≠ (Obj.shape r).2)).
Proof.
  unfold get_order_diff. cbv zeta.
  destruct (_ && _).
  { right. cbn [fst snd]. rewrite map_size_empty, dom_empty_L.
    split; [lia|]. split; [lia|]. split; [done|].
    split; intros v Hv; by rewrite lookup_empty in Hv. }
  destruct (_ || _); [by left|]. right.
  cbn [foldl]. cbv beta iota.
  rewrite ?(bool_decide_eq_true_2 ("R" = "R")) by done.
  rewrite ?(bool_decide_eq_false_2 ("C" = "R")) by done.
  assert ("p" ≠ "f") as Hpf by done.
  repeat case_bool_decide; cbn [fst snd];
    rewrite ?map_size_insert_None, ?map_size_empty, ?dom_insert_L, ?dom_empty_L
      by (by rewrite ?lookup_insert_ne, ?lookup_empty);
    (split; [lia|]); (split; [lia|]); (split; [set_solver|]);
    split; intros v;
    rewrite ?lookup_insert_eq, ?(lookup_insert_ne _ "p" "f"), ?lookup_insert_eq,
      ?(lookup_insert_ne _ "f" "p"), ?lookup_empty by done;
    intros Hv; first [ done | by inversion Hv ].
Qed.

End order_diff_bounds.

(** ** More on find_closest *)

Section find_closest_more.
Context `{ObjectOrder}.

(** X14: a match does not depend on the threshold that admitted it.
    When [find_closest] returns a delta under a threshold, it returns
    the same delta under every larger threshold and with no threshold
    at all; the delta starts at [obj], ends at a member of the
    inventory and is within the threshold. *)
Theorem find_closest_threshold_monotone (obj : Object)
    (inventory : list Object) (t t' : Q) (d : ObjectDelta) :
  find_closest obj inventory (Some t) = Some d → (t <= t')%Q →
  find_closest obj inventory (Some t') = Some d
  ∧ find_closest obj inventory None = Some d
  ∧ (inject_Z (dist d) <= t)%Q
  ∧ left d = obj ∧ right d ∈ inventory.
Proof.
  destruct inventory as [|first rest]; [done|].
  destruct (closest_scan_first obj first rest)
    as (i & best & (Hi & _ & _) & Hscan).
  unfold find_closest. fold (delta_to obj first). rewrite Hscan.
  destruct (Qle_bool (inject_Z (dist (delta_to obj best))) t) eqn:Hle;
    [|done].
  intros [= <-] Htt'. apply Qle_bool_iff in Hle.
  assert (Qle_bool (inject_Z (dist (delta_to obj best))) t' = true) as ->.
  { apply Qle_bool_iff. by eapply Qle_trans. }
  repeat split; try done. cbn [right delta_to new_ObjectDelta].
  by apply list_elem_of_lookup_2 in Hi.
Qed.

End find_closest_more.

Lemma find_closest_threshold_monotone_witness :
  let obj := Obj.point 0 3 1 in
  let inventory := [Obj.point 0 4 1; Obj.point 5 5 1; Obj.point 2 3 1] in
  @find_closest plain_order obj inventory (Some (7 # 2)%Q)
    = Some (@delta_to plain_order obj (Obj.point 5 5 1)).
Proof.
  intros obj inventory.
  apply (@find_closest_threshold_monotone plain_order obj inventory
           (3 # 2)%Q (7 # 2)%Q); [reflexivity | by vm_compute].
Defined.

(** ** Template.get_base along a joined path, and apply_variable *)

Module TemplateMore.
Import Template TemplateFacts.

Lemma final_cons (i : Z) (idxs : list Z) (node : StructureDef) :
  final (i :: idxs) node =
    match child_at node i with
    | Some child => final idxs child
    | None => final idxs node
    end.
Proof.
  unfold final. cbn [reached]. destruct (child_at node i) as [child|]; [|done].
  destruct (reached idxs child) as [|r rs] eqn:Hr; [reflexivity|].
  rewrite last_cons_cons.
  destruct (last (r :: rs)) eqn:Hlast; [reflexivity|].
  by apply last_None in Hlast.
Qed.

Lemma get_base_as_loop (base : BaseObjectPath) (root : StructureDef) :
  get_base base root = Template.get_base_loop base base root.
Proof. by destruct base. Qed.

Lemma failures_app (p q : list Z) (node : StructureDef) :
  failures (p ++ q) node = failures p node ++ failures q (final p node).
Proof.
  revert node. induction p as [|i p IH]; intros node; [reflexivity|].
  rewrite final_cons. cbn [app failures].
  destruct (child_at node i) as [child|]; rewrite IH; reflexivity.
Qed.

Lemma final_app (p q : list Z) (node : StructureDef) :
  final (p ++ q) node = final q (final p node).
Proof.
  revert node. induction p as [|i p IH]; intros node; [reflexivity|].
  cbn [app]. rewrite !final_cons.
  destruct (child_at node i) as [child|]; apply IH.
Qed.

(** What [l[i]] does, by the position it reads. *)
Lemma getitem_spec {A} (l : list A) (i : Z) :
  let n := Z.of_nat (length l) in
  (- n ≤ i < n →
     ∃ x, l !! position (length l) i = Some x ∧ getitem l i = ret x)
  ∧ (¬ (- n ≤ i < n) → getitem l i = raise IndexError).
Proof.
  cbv zeta. unfold getitem, position. cbv zeta. split.
  - intros Hi.
    destruct (lookup_lt_is_Some_2 l
                (Z.to_nat (if bool_decide (i < 0)
                           then i + Z.of_nat (length l) else i)))
      as [x Hx]; [case_bool_decide; lia|].
    exists x. split; [exact Hx|]. rewrite Hx.
    rewrite bool_decide_eq_true_2 by (case_bool_decide; lia). reflexivity.
  - intros Hi. rewrite bool_decide_eq_false_2 by (case_bool_decide; lia).
    reflexivity.
Qed.

Section mutate.
Variable f : StructureDef → StructureDef.
Hypothesis f_children : ∀ t, children (f t) = children t.

Lemma mutate_base_length (idxs : list Z) (node : StructureDef) :
  length (children (mutate_base idxs f node)) = length (children node).
Proof.
  revert node. induction idxs as [|i idxs IH]; intros node;
    cbn [mutate_base]; [by rewrite f_children|].
  destruct (getitem (children node) i) as [lg [e|child]]; [apply IH|].
  cbn [children]. by rewrite length_insert.
Qed.

(** After the mutation the walk logs what it logged before and ends on
    the mutated node. *)
Lemma get_base_loop_mutate (base : BaseObjectPath) (idxs : list Z)
    (node : StructureDef) :
  ∃ log target,
    Template.get_base_loop base idxs node = (log, inr target)
    ∧ Template.get_base_loop base idxs (mutate_base idxs f node)
      = (log, inr (f target)).
Proof.
  revert node. induction idxs as [|i idxs IH]; intros node.
  { by exists [], node. }
  cbn [Template.get_base_loop mutate_base].
  destruct (getitem_spec (children node) i) as [Hin Hout]. cbv zeta in *.
  destruct (decide (- Z.of_nat (length (children node)) ≤ i
                    < Z.of_nat (length (children node)))) as [Hi|Hi].
  - destruct (Hin Hi) as (child & Hchild & ->). cbn [ret].
    destruct (IH child) as (log & target & Hwalk & Hwalk').
    exists log, target. split; [cbn; by rewrite Hwalk|].
    cbn [children].
    destruct (getitem_spec
                (<[position (length (children node)) i :=
                     mutate_base idxs f child]> (children node)) i)
      as [Hin' _]. cbv zeta in Hin'. rewrite length_insert in Hin'.
    destruct (Hin' Hi) as (x & Hx & ->).
    rewrite list_lookup_insert_eq in Hx
      by (by eapply lookup_lt_Some).
    injection Hx as <-. cbn. by rewrite Hwalk'.
  - rewrite (Hout Hi). cbn [raise].
    destruct (IH node) as (log & target & Hwalk & Hwalk').
    exists (warning "Can't access base path" base :: log), target.
    split; [cbn; by rewrite Hwalk|].
    destruct (getitem_spec (children (mutate_base idxs f node)) i)
      as [_ Hout']. cbv zeta in Hout'. rewrite mutate_base_length in Hout'.
    rewrite (Hout' Hi). cbn. by rewrite Hwalk'.
Qed.

End mutate.

End TemplateMore.

(** X15: walking a joined path is walking its first part and then, from
    the node that walk ends on, its second part: [get_base] returns the
    same node either way and logs as many warnings. *)
Theorem get_base_app (p q : Template.BaseObjectPath)
    (root : Template.StructureDef) :
  let joined := Template.get_base (p ++ q) root in
  let staged := Template.bind (Template.get_base p root) (Template.get_base q) in
  joined.2 = staged.2 ∧ length joined.1 = length staged.1.
Proof.
  cbv zeta. rewrite !TemplateMore.get_base_as_loop.
  rewrite !TemplateFacts.get_base_loop_spec. cbn [Template.bind].
  rewrite TemplateMore.get_base_as_loop, TemplateFacts.get_base_loop_spec.
  cbn [fst snd]. fold (Template.final p root).
  fold (Template.final q (Template.final p root)).
  fold (Template.final (p ++ q) root).
  rewrite TemplateMore.final_app, TemplateMore.failures_app.
  split; [reflexivity|]. by rewrite length_app, !length_fmap, length_app.
Qed.

(** X16: [apply_variable] with a property name writes where [get_base]
    reads. It never raises and logs what the walk logs; afterwards the
    same path leads, with the same warnings, to the node it led to
    before, whose property now holds the value, whose other properties
    are untouched and whose children are the same. *)
Theorem apply_variable_round_trip (frame : Template.StructureDef)
    (path : Template.ObjectPath) (key : string) (value : Z) :
  Template.property path = Some key →
  ∃ log target frame',
    Template.get_base (Template.path_base path) frame = (log, inr target)
    ∧ Template.apply_variable frame path value = (log, inr frame')
    ∧ Template.get_base (Template.path_base path) frame'
      = (log, inr (Template.set_prop key value target))
    ∧ Template.props (Template.set_prop key value target) !! key
      = Some (Template.Known value)
    ∧ (∀ key', key' ≠ key →
         Template.props (Template.set_prop key value target) !! key'
         = Template.props target !! key')
    ∧ Template.children (Template.set_prop key value target)
      = Template.children target.
Proof.
  intros Hkey. unfold Template.apply_variable. rewrite Hkey.
  rewrite !TemplateMore.get_base_as_loop.
  destruct (TemplateMore.get_base_loop_mutate (Template.set_prop key value)
              (λ _, eq_refl) (Template.path_base path)
              (Template.path_base path) frame)
    as (log & target & Hwalk & Hwalk').
  exists log, target, (Template.mutate_base (Template.path_base path)
                         (Template.set_prop key value) frame).
  rewrite TemplateMore.get_base_as_loop, Hwalk, Hwalk'. cbn [Template.bind Template.ret].
  rewrite app_nil_r. repeat split.
  - cbn. apply lookup_insert_eq.
  - intros key' Hne. cbn. by apply lookup_insert_ne.
Qed.

Lemma apply_variable_round_trip_witness :
  let leaf := Template.mkStructureDef ∅ [] in
  let frame := Template.mkStructureDef ∅ [leaf; leaf] in
  let path := Template.mkObjectPath [-1; 7] (Some "color") in
  ∃ log target frame',
    Template.get_base (Template.path_base path) frame = (log, inr target)
    ∧ Template.apply_variable frame path 3 = (log, inr frame')
    ∧ Template.get_base (Template.path_base path) frame'
      = (log, inr (Template.set_prop "color" 3 target))
    ∧ Template.props (Template.set_prop "color" 3 target) !! "color"
      = Some (Template.Known 3)
    ∧ (∀ key', key' ≠ "color" →
         Template.props (Template.set_prop "color" 3 target) !! key'
         = Template.props target !! key')
    ∧ Template.children (Template.set_prop "color" 3 target)
      = Template.children target.
Proof.
  intros leaf frame path.
  apply (apply_variable_round_trip frame path "color" 3). reflexivity.
Defined.

(** ** More on the decomposition board *)

Section board_more.
Context `{ObjectCost}.

(** The bound left by the scan is at most the cost of every object
    scanned. *)
Lemma select_scan_lower (best : Z) (r : Object) (objs : list Object) :
  ∀ o, o ∈ objs → (Board_.select_scan best r objs).1 ≤ props o.
Proof.
  revert best r. induction objs as [|x objs IH]; intros best r o Ho.
  { by apply elem_of_nil in Ho. }
  unfold Board_.select_scan. cbn [foldl].
  apply elem_of_cons in Ho as [->|Ho].
  - case_bool_decide as Hlt.
    + pose proof (select_scan_result (props x) (flatten x) objs) as [Hle _].
      exact Hle.
    + pose proof (select_scan_result best r objs) as [Hle _].
      unfold Board_.select_scan in Hle. cbv zeta in Hle. lia.
  - case_bool_decide; by apply IH.
Qed.

(** A scan that meets nothing below the bound changes nothing. *)
Lemma select_scan_fixed (best : Z) (r : Object) (objs : list Object) :
  (∀ o, o ∈ objs → best ≤ props o) →
  Board_.select_scan best r objs = (best, r).
Proof.
  induction objs as [|x objs IH]; intros Hall; [reflexivity|].
  unfold Board_.select_scan. cbn [foldl].
  rewrite bool_decide_eq_false_2.
  - apply IH. intros o Ho. apply Hall, elem_of_cons. by right.
  - specialize (Hall x). rewrite elem_of_cons in Hall.
    specialize (Hall (or_introl eq_refl)). lia.
Qed.

Lemma batch_loop_bank (n : nat) (b : Board) :
  processes (Board_.batch_loop n b) = processes b
  ∧ ∃ added,
      bank (Board_.batch_loop n b) = bank b ++ (flatten <$> added)
      ∧ Forall (λ x, Board_._decomposition b x = []) added.
Proof.
  destruct (batch_loop_pops n b) as (popped & Hpops & _).
  destruct (pops_fifo _ _ _ Hpops) as (Hprocs & _ & Hbank).
  split; [exact Hprocs|].
  exists (filter (λ o, Board_._decomposition b o = []) popped).
  split; [exact Hbank|].
  apply Forall_forall. intros x Hx. by apply list_elem_of_filter in Hx as [? _].
Qed.

Lemma decompose_rounds_bank (n : nat) (b : Board) (batch : Z) :
  processes (Board_.decompose_rounds n b batch) = processes b
  ∧ ∃ added,
      bank (Board_.decompose_rounds n b batch) = bank b ++ (flatten <$> added)
      ∧ Forall (λ x, Board_._decomposition b x = []) added.
Proof.
  revert b. induction n as [|n IH]; intros b; cbn [Board_.decompose_rounds].
  { split; [done|]. exists []. by rewrite app_nil_r. }
  destruct (batch_loop_bank (Z.to_nat batch) b)
    as (Hprocs & added & Hbank & Hadded).
  fold (Board_.batch_decomposition b batch) in Hprocs, Hbank.
  destruct (proc_q (Board_.batch_decomposition b batch)).
  { split; [exact Hprocs|]. by exists added. }
  destruct (IH (Board_.batch_decomposition b batch))
    as (Hprocs' & added' & Hbank' & Hadded').
  split; [congruence|]. exists (added ++ added').
  rewrite Hbank', Hbank, fmap_app, app_assoc. split; [reflexivity|].
  apply Forall_app. split; [exact Hadded|].
  eapply Forall_impl; [exact Hadded'|]. intros x Hx. cbv beta in *.
  by rewrite <- (decomposition_processes _ _ Hprocs x).
Qed.

(** X17: [decompose] never touches the processes and never drops or
    reorders a banked object: the bank grows at its end, and only by
    flattened objects that [_decomposition] has no candidate for. *)
Theorem decompose_bank (b : Board) (batch max_iter : Z) :
  processes (Board_.decompose b batch max_iter) = processes b
  ∧ ∃ added,
      bank (Board_.decompose b batch max_iter) = bank b ++ (flatten <$> added)
      ∧ Forall (λ x, Board_._decomposition b x = []) added.
Proof.
  unfold Board_.decompose.
  destruct (select_representation_fields
              (Board_.decompose_rounds (Z.to_nat max_iter) b batch))
    as (-> & _ & ->).
  apply decompose_rounds_bank.
Qed.

Section optimal.

(** The condition of the statement below: flattening an object does
    not raise its cost. [flatten] and [props] live in the absent
    [arc/object.py]. *)
Hypothesis flatten_props : ∀ o, props (flatten o) ≤ props o.

(** X18: [select_representation] leaves a representation that costs no
    more than any object in the bank or the queue; selecting again
    changes nothing; and so the representation [decompose] ends with
    costs no more than anything left in its bank or its queue. *)
Theorem select_representation_optimal (b : Board) :
  (∀ o, o ∈ bank b ++ proc_q b →
        props (rep (Board_.select_representation b)) ≤ props o)
  ∧ Board_.select_representation (Board_.select_representation b)
    = Board_.select_representation b
  ∧ ∀ batch max_iter o,
      o ∈ bank (Board_.decompose b batch max_iter)
          ++ proc_q (Board_.decompose b batch max_iter) →
      props (rep (Board_.decompose b batch max_iter)) ≤ props o.
Proof.
  assert (∀ b o, o ∈ bank b ++ proc_q b →
                 props (rep (Board_.select_representation b)) ≤ props o)
    as Hbest.
  { clear b. intros b o Ho.
    pose proof (select_scan_lower (props (rep b)) (rep b) _ o Ho) as Hlow.
    pose proof (select_scan_result (props (rep b)) (rep b)
                  (bank b ++ proc_q b)) as [Hle Hres].
    unfold Board_.select_representation.
    destruct (Board_.select_scan _ _ _) as [best' rep'].
    cbn [fst snd rep] in *.
    destruct Hres as [(-> & ->)|(x & _ & _ & -> & ->)]; [lia|].
    specialize (flatten_props x). lia. }
  split; [apply Hbest|]. split.
  - specialize (Hbest b).
    destruct (select_representation_fields b) as (Hprocs & Hq & Hbank).
    destruct (Board_.select_representation b) as [rep' procs' q' bank'].
    cbn [rep processes proc_q bank] in *. subst.
    unfold Board_.select_representation at 1. cbn [rep processes proc_q bank].
    by rewrite select_scan_fixed.
  - intros batch max_iter o. unfold Board_.decompose.
    destruct (select_representation_fields
                (Board_.decompose_rounds (Z.to_nat max_iter) b batch))
      as (_ & -> & ->).
    apply Hbest.
Qed.

End optimal.

End board_more.

Lemma select_representation_optimal_witness :
  @Board_.select_representation node_cost
    (@Board_.select_representation node_cost demo_board)
  = @Board_.select_representation node_cost demo_board.
Proof.
  apply (@select_representation_optimal node_cost
           (λ o, Z.le_refl (Z.of_nat (node_count o))) demo_board).
Defined.

(** X19: a finished object is refined in one child only: the last of
    its children that [_decomposition] has candidates for. Each
    candidate of that child gives one candidate of the object, which
    keeps the object's anchor, generator and traits and all its other
    children; when no child has candidates, neither has the object. *)
Theorem decomposition_one_child (self : Board) (r c k : Z)
    (kids : list Object) (gen : option (gmap string Z))
    (tr : gmap string bool) :
  kids ≠ [] → tr !! "finished" = Some true →
  let obj := mkObject r c k kids gen tr in
  (Board_._decomposition self obj = []
   ∧ Forall (λ kid, Board_._decomposition self kid = []) kids)
  ∨ ∃ idx child,
      kids !! idx = Some child
      ∧ Board_._decomposition self child ≠ []
      ∧ (∀ j kid, (idx < j)%nat → kids !! j = Some kid →
                  Board_._decomposition self kid = [])
      ∧ Board_._decomposition self obj
        = (λ new_child, mkObject r c k (<[idx := new_child]> kids) gen tr)
            <$> Board_._decomposition self child.
Proof.
  intros Hkids Hfin obj. subst obj. cbn [Board_._decomposition].
  rewrite bool_decide_eq_false_2 by (by destruct kids).
  rewrite (bool_decide_eq_true_2 _ Hfin).
  match goal with
  | |- context [match ?s kids 0%nat with _ => _ end] =>
      assert (∀ ks base,
        (s ks base = None
         ∧ Forall (λ kid, Board_._decomposition self kid = []) ks)
        ∨ ∃ i child,
            ks !! i = Some child
            ∧ Board_._decomposition self child ≠ []
            ∧ (∀ j kid, (i < j)%nat → ks !! j = Some kid →
                        Board_._decomposition self kid = [])
            ∧ s ks base
              = Some ((base + i)%nat, Board_._decomposition self child))
        as Hscan
  end.
  { clear. induction ks as [|kid ks IH]; intros base; [by left|].
    cbn. destruct (IH (S base)) as [(-> & Hall)|(i & child & Hi & Hne & Hlater & ->)].
    - destruct (Board_._decomposition self kid) as [|cand cands] eqn:Hkid.
      + left. split; [done|]. by constructor.
      + right. exists 0%nat, kid. split; [done|]. rewrite Hkid.
        split; [done|]. split.
        * intros [|j] kid' Hj Hlook; [lia|]. cbn in Hlook.
          eapply Forall_lookup_1 in Hall; [exact Hall|exact Hlook].
        * by rewrite Nat.add_0_r.
    - right. exists (S i), child. split; [done|]. split; [done|]. split.
      + intros [|j] kid' Hj Hlook; [lia|]. cbn in Hlook.
        eapply Hlater; [|exact Hlook]. lia.
      + f_equal. f_equal. lia. }
  destruct (Hscan kids 0%nat) as [(-> & Hall)|(i & child & Hi & Hne & Hlater & ->)].
  - by left.
  - right. exists i, child. done.
Qed.

Lemma decomposition_one_child_witness :
  let kids := [two_points; Obj.point 3 3 2] in
  let obj := mkObject 0 0 cst.NULL_COLOR kids None {["finished" := true]} in
  (Board_._decomposition demo_board obj = []
   ∧ Forall (λ kid, Board_._decomposition demo_board kid = []) kids)
  ∨ ∃ idx child,
      kids !! idx = Some child
      ∧ Board_._decomposition demo_board child ≠ []
      ∧ (∀ j kid, (idx < j)%nat → kids !! j = Some kid →
                  Board_._decomposition demo_board kid = [])
      ∧ Board_._decomposition demo_board obj
        = (λ new_child,
             mkObject 0 0 cst.NULL_COLOR (<[idx := new_child]> kids) None
               {["finished" := true]})
            <$> Board_._decomposition demo_board child.
Proof.
  intros kids obj.
  apply (decomposition_one_child demo_board 0 0 cst.NULL_COLOR kids None
           {["finished" := true]}); [done | reflexivity].
Defined.

(** ** Scene.recreate *)

Section recreate_facts.
Context `{ObjectOrder}.

Lemma order_diff_nonneg (l r : Object) : 0 ≤ (get_order_diff l r).1.
Proof.
  unfold get_order_diff, cst.MAX_DIST. cbv zeta.
  destruct (_ && _); [done|]. destruct (_ || _); [done|].
  cbn [foldl]. cbv beta iota. repeat case_bool_decide; cbn [fst]; lia.
Qed.

Lemma color_diff_nonneg (l r : Object) : 0 ≤ (get_color_diff l r).1.
Proof.
  unfold get_color_diff, cst.MAX_DIST. cbv zeta.
  repeat case_bool_decide; cbn [fst]; lia.
Qed.

Lemma translation_nonneg (l r : Object) : 0 ≤ (get_translation l r).1.
Proof.
  unfold get_translation, Obj.loc. cbv zeta beta iota.
  repeat case_bool_decide; cbn [fst]; lia.
Qed.

Lemma delta_dist_nonneg (l r : Object) : 0 ≤ dist (delta_to l r).
Proof.
  unfold delta_to, new_ObjectDelta, default_comparisons. cbv zeta.
  cbn [dist fmap list_fmap foldr].
  pose proof (order_diff_nonneg l r). pose proof (color_diff_nonneg l r).
  pose proof (translation_nonneg l r).
  case_bool_decide; [by unfold cst.MAX_DIST|]. lia.
Qed.

Lemma recreate_unfold (obj : Object) (inventory : list Object) :
  recreate obj inventory =
    match find_closest obj inventory None with
    | None => (-1, [])
    | Some delta =>
        match children obj with
        | [] => (dist delta, [delta])
        | _ =>
            let all :=
              foldl (λ all kid,
                       ((all.1 + (recreate kid inventory).1)%Z,
                        all.2 ++ (recreate kid inventory).2))
                    (0, []) (children obj) in
            if bool_decide (dist delta ≤ all.1) then (dist delta, [delta])
            else all
        end
    end.
Proof.
  destruct obj as [r c k kids gen tr]. cbn [recreate children].
  destruct (find_closest _ _ _) as [delta|]; [|reflexivity].
  destruct kids as [|kid kids]; [reflexivity|].
  match goal with
  | |- (let '(_, _) := foldl ?f _ _ in _) = _ =>
      assert (∀ ks acc, foldl f acc ks
                = foldl (λ all kid,
                           ((all.1 + (recreate kid inventory).1)%Z,
                            all.2 ++ (recreate kid inventory).2)) acc ks)
        as Hfold
  end.
  { clear. induction ks as [|x ks IH]; intros [a1 a2]; [reflexivity|].
    cbn [foldl]. rewrite <- IH.
    by destruct (recreate x inventory). }
  rewrite Hfold. cbv zeta.
  destruct (foldl _ _ _) as [all_dist all_deltas]. reflexivity.
Qed.

Lemma recreate_kids (inventory : list Object) (kids : list Object)
    (all : Z * list ObjectDelta) :
  Forall (λ kid, recreated inventory (recreate kid inventory)) kids →
  all.1 = foldr Z.add 0 (dist <$> all.2) → 0 ≤ all.1 →
  Forall (λ d, right d ∈ inventory) all.2 →
  all.2 ≠ [] ∨ kids ≠ [] →
  recreated inventory
    (foldl (λ all kid,
              ((all.1 + (recreate kid inventory).1)%Z,
               all.2 ++ (recreate kid inventory).2)) all kids).
Proof.
  intros Hkids. revert all.
  induction Hkids as [|kid kids (Hsum & Hpos & Hne & Hin) _ IH];
    intros all Hall Hall0 Hallin Hnonempty.
  { cbn. destruct Hnonempty; done. }
  cbn [foldl]. apply IH; cbn [fst snd].
  - rewrite fmap_app, foldr_app, Hall, Hsum.
    generalize (foldr Z.add 0 (dist <$> (recreate kid inventory).2)).
    generalize (dist <$> all.2). clear.
    induction l as [|x l IHl]; intros z; cbn; [lia|]. rewrite <- (IHl z). lia.
  - lia.
  - by apply Forall_app.
  - left. intros Happ. by apply app_eq_nil in Happ as [_ ?].
Qed.

(** X20: on a non-empty inventory [recreate] always finds a way: the
    distance it returns is the total of the distances of the deltas it
    returns, is never the failure value -1, and is at most the
    distance of the closest direct match of the object; it returns at
    least one delta, and every delta ends at an object of the
    inventory. *)
Theorem recreate_distance (obj : Object) (inventory : list Object) :
  inventory ≠ [] →
  ∃ delta,
    find_closest obj inventory None = Some delta
    ∧ (recreate obj inventory).1
      = foldr Z.add 0 (dist <$> (recreate obj inventory).2)
    ∧ 0 ≤ (recreate obj inventory).1 ≤ dist delta
    ∧ (recreate obj inventory).2 ≠ []
    ∧ Forall (λ d, right d ∈ inventory) (recreate obj inventory).2.
Proof.
  intros Hinv. destruct inventory as [|first rest]; [done|]. clear Hinv.
  assert (∀ o, ∃ delta,
            find_closest o (first :: rest) None = Some delta
            ∧ 0 ≤ dist delta ∧ right delta ∈ first :: rest) as Hdirect.
  { intros o.
    destruct (find_closest_no_threshold o first rest)
      as (i & best & (Hi & _) & Hfind).
    exists (delta_to o best). split; [exact Hfind|].
    split; [apply delta_dist_nonneg|].
    by apply list_elem_of_lookup_2 in Hi. }
  assert (∀ o, recreated (first :: rest) (recreate o (first :: rest))
               ∧ ∀ delta, find_closest o (first :: rest) None = Some delta →
                          (recreate o (first :: rest)).1 ≤ dist delta)
    as Hall.
  { induction o as [r c k kids gen tr IH] using Object_ind'.
    rewrite recreate_unfold.
    destruct (Hdirect (mkObject r c k kids gen tr))
      as (delta & -> & Hpos & Hright).
    assert (recreated (first :: rest) (dist delta, [delta])) as Hresult.
    { repeat split; cbn; [lia|lia|done|by constructor]. }
    cbn [children]. destruct kids as [|kid kids].
    { split; [exact Hresult|]. intros d [= <-]. cbn. lia. }
    cbv zeta. case_bool_decide as Hle.
    { split; [exact Hresult|]. intros d [= <-]. cbn. lia. }
    split.
    - apply recreate_kids; cbn; try done.
      + eapply Forall_impl; [exact IH|]. by intros o [Ho _].
      + by right.
    - intros d [= <-]. lia. }
  destruct (Hdirect obj) as (delta & Hfind & _).
  destruct (Hall obj) as ((Hsum & Hpos & Hne & Hin) & Hle).
  exists delta. specialize (Hle delta Hfind). done.
Qed.

End recreate_facts.

Lemma recreate_distance_witness :
  let inventory := [Obj.point 0 4 1; Obj.point 5 5 1] in
  ∃ delta,
    @find_closest plain_order two_points inventory None = Some delta
    ∧ (@recreate plain_order two_points inventory).1
      = foldr Z.add 0 (dist <$> (@recreate plain_order two_points inventory).2)
    ∧ 0 ≤ (@recreate plain_order two_points inventory).1 ≤ dist delta
    ∧ (@recreate plain_order two_points inventory).2 ≠ []
    ∧ Forall (λ d, right d ∈ inventory)
        (@recreate plain_order two_points inventory).2.
Proof.
  intros inventory.
  apply (@recreate_distance plain_order two_points inventory). done.
Defined.

(** ** Paint.inv and the colour comparison *)

(** X21: [Paint.inv(left, right)] and [get_color_diff(right, left)]
    agree. [Paint.inv] returns at most one argument; when it returns
    none the comparison proposes nothing; when it returns the colour
    [c], that is the one colour of [right], it is not the colour of
    [left], and the comparison called with the two objects exchanged
    charges 2 and proposes the same colour under ["c"]. *)
Theorem paint_inv_color_diff (left right : Object) :
  (Actions.Paint.inv left right = []
   ∧ (get_color_diff right left).2 = ∅)
  ∨ ∃ c, Actions.Paint.inv left right = [c]
         ∧ get_color_diff right left = (2, {["c" := c]})
         ∧ color_set right = {[c]}
         ∧ c ∉ color_set left.
Proof.
  rewrite color_diff_unfold. unfold Actions.Paint.inv. cbv zeta.
  fold (color_set left) (color_set right).
  fold (monochrome left) (monochrome right).
  rewrite (bool_decide_ext (monochrome right ∧ monochrome left)
             (monochrome left ∧ monochrome right)) by tauto.
  destruct (decide (color_set left = color_set right)) as [Heq|Hne].
  { rewrite (bool_decide_eq_false_2 (color_set left ≠ color_set right))
      by (intros Hn; by apply Hn).
    rewrite (bool_decide_eq_false_2 (color_set right ≠ color_set left))
      by (intros Hn; by apply Hn).
    left. by case_bool_decide. }
  rewrite (bool_decide_eq_true_2 (color_set left ≠ color_set right)) by done.
  rewrite (bool_decide_eq_true_2 (color_set right ≠ color_set left))
    by (intros Hn; by apply Hne).
  case_bool_decide as Hmono; [|by left].
  destruct Hmono as [Hl Hr]. right.
  destruct (monochrome_singleton right Hr) as (c & Hc & Hhd).
  destruct (monochrome_singleton left Hl) as (c' & Hc' & _).
  exists c. rewrite Hhd. repeat split; try done.
  rewrite Hc'. intros Hin. apply elem_of_singleton in Hin as ->.
  apply Hne. by rewrite Hc, Hc'.
Qed.
